(** * socketController.js: lobby, challenge and game-session handlers

    A shallow embedding of the WebSocket controller.  The two [Map]s of
    the closure ([onlineUsers], [activeGames]) become an explicit state
    threaded through one function per socket event; every [emit] becomes
    an entry of the list of emissions the handler returns, in the order
    the handler sends them.  Connection and session identifiers are
    strings, codes (secrets and guesses) are arrays of integers, and the
    reading of [Date.now()] is an argument of the handler that takes it.
    [console.log] output is not part of the model. *)

From Stdlib Require Import ZArith DecimalString DecimalPos DecimalZ.
From stdpp Require Import base list strings.

Local Open Scope string_scope.
Local Open Scope list_scope.
Local Open Scope Z_scope.

(** ** JavaScript [Map] with string keys

    A [Map] iterates in insertion order, [set] on a present key keeps the
    key's position, and [delete] forgets it. *)
Module JsMap.

Definition t (V : Type) : Type := list (string * V).

Definition empty {V} : t V := [].

Fixpoint get {V} (m : t V) (k : string) : option V :=
  match m with
  | [] => None
  | (k', v) :: m' => if String.eqb k' k then Some v else get m' k
  end.

Definition has {V} (m : t V) (k : string) : bool :=
  match get m k with Some _ => true | None => false end.

Fixpoint set {V} (m : t V) (k : string) (v : V) : t V :=
  match m with
  | [] => [(k, v)]
  | (k', v') :: m' =>
      if String.eqb k' k then (k, v) :: m' else (k', v') :: set m' k v
  end.

Fixpoint delete {V} (m : t V) (k : string) : t V :=
  match m with
  | [] => []
  | (k', v') :: m' =>
      if String.eqb k' k then delete m' k else (k', v') :: delete m' k
  end.

Definition values {V} (m : t V) : list V := map snd m.

Definition entries {V} (m : t V) : list (string * V) := m.

End JsMap.

(** ** The feedback helper *)

(** [Array.prototype.indexOf]: the first index holding [v], or [-1]. *)
Fixpoint indexOf_from (l : list Z) (v : Z) (i : Z) : Z :=
  match l with
  | [] => -1
  | x :: l' => if x =? v then i else indexOf_from l' v (i + 1)
  end.

Definition indexOf (l : list Z) (v : Z) : Z := indexOf_from l v 0.

Inductive peg : Type := black | white.

#[global] Instance peg_eq_dec : EqDecision peg.
Proof. solve_decision. Defined.

(** [val === guessCopy[i]], where [guessCopy[i]] is [undefined] out of
    range and [undefined] is not a number. *)
Definition strict_eq_at (val : Z) (cell : option Z) : bool :=
  match cell with
  | Some g => val =? g
  | None => false
  end.

(** The first [forEach] callback, at index [i]; the state is
    [(secretCopy, guessCopy, black)]. *)
Definition blacks_step (st : list Z * list Z * nat) (i : nat)
  : list Z * list Z * nat :=
  let '(secretCopy, guessCopy, nblack) := st in
  match secretCopy !! i with
  | Some val =>
      if strict_eq_at val (guessCopy !! i)
      then (<[i := -1]> secretCopy, <[i := -1]> guessCopy, S nblack)
      else st
  | None => st
  end.

Definition blacks_pass (secret guess : list Z) : list Z * list Z * nat :=
  foldl blacks_step (secret, guess, 0%nat) (seq 0 (length secret)).

(** The second [forEach] callback, at value [val]; the state is
    [(guessCopy, white)]. *)
Definition whites_step (st : list Z * nat) (val : Z) : list Z * nat :=
  let '(guessCopy, nwhite) := st in
  if negb (val =? -1) then
    let idx := indexOf guessCopy val in
    if negb (idx =? -1)
    then (<[Z.to_nat idx := -1]> guessCopy, S nwhite)
    else st
  else st.

Definition whites_pass (secretCopy guessCopy : list Z) : list Z * nat :=
  foldl whites_step (guessCopy, 0%nat) secretCopy.

Definition calculateFeedback (secret guess : list Z) : list peg :=
  let '(secretCopy, guessCopy, nblack) := blacks_pass secret guess in
  let '(_, nwhite) := whites_pass secretCopy guessCopy in
  replicate nblack black ++ replicate nwhite white.

Definition exactCount (fb : list peg) : nat := length (filter (eq black) fb).
Definition colorCount (fb : list peg) : nat := length (filter (eq white) fb).

(** ** Lobby and session records *)

(** The entry [register_user] stores for a connection.  [username] is
    [None] when the payload carries no username ([undefined]). *)
Record user : Type := {
  username : option string;
  socketId : string;
  status : string;
}.

(** What a client sends with [register_user]: a bare string, or an object
    whose [username] field may be missing. *)
Inductive user_data : Type :=
| ud_string (s : string)
| ud_object (uname : option string).

Record guess_data : Type := {
  guess : list Z;
  feedback : list peg;
}.

(** A session of [activeGames]; a secret is [None] while it is [null]. *)
Record game : Type := {
  player1 : string;
  player2 : string;
  secret1 : option (list Z);
  secret2 : option (list Z);
  guesses1 : list guess_data;
  guesses2 : list guess_data;
  bothCodesSet : bool;
}.

Definition set_secret1 (g : game) (c : list Z) : game :=
  {| player1 := player1 g; player2 := player2 g;
     secret1 := Some c; secret2 := secret2 g;
     guesses1 := guesses1 g; guesses2 := guesses2 g;
     bothCodesSet := bothCodesSet g |}.

Definition set_secret2 (g : game) (c : list Z) : game :=
  {| player1 := player1 g; player2 := player2 g;
     secret1 := secret1 g; secret2 := Some c;
     guesses1 := guesses1 g; guesses2 := guesses2 g;
     bothCodesSet := bothCodesSet g |}.

Definition set_bothCodesSet (g : game) : game :=
  {| player1 := player1 g; player2 := player2 g;
     secret1 := secret1 g; secret2 := secret2 g;
     guesses1 := guesses1 g; guesses2 := guesses2 g;
     bothCodesSet := true |}.

Definition push_guesses1 (g : game) (d : guess_data) : game :=
  {| player1 := player1 g; player2 := player2 g;
     secret1 := secret1 g; secret2 := secret2 g;
     guesses1 := guesses1 g ++ [d]; guesses2 := guesses2 g;
     bothCodesSet := bothCodesSet g |}.

Definition push_guesses2 (g : game) (d : guess_data) : game :=
  {| player1 := player1 g; player2 := player2 g;
     secret1 := secret1 g; secret2 := secret2 g;
     guesses1 := guesses1 g; guesses2 := guesses2 g ++ [d];
     bothCodesSet := bothCodesSet g |}.

Record state : Type := {
  onlineUsers : JsMap.t user;
  activeGames : JsMap.t game;
}.

Definition initial : state :=
  {| onlineUsers := JsMap.empty; activeGames := JsMap.empty |}.

Definition with_users (st : state) (u : JsMap.t user) : state :=
  {| onlineUsers := u; activeGames := activeGames st |}.

Definition with_games (st : state) (g : JsMap.t game) : state :=
  {| onlineUsers := onlineUsers st; activeGames := g |}.

(** ** Outbound notifications *)

Inductive message : Type :=
| users_list_update (users : list user)
| challenge_received (uname : option string) (sock : string)
| challenge_accepted (opponent : option string)
    (opponentSocketId gameId role : string)
| opponent_code_set (gameId : string)
| both_codes_set (gameId : string)
| guess_error (gameId error : string)
| guess_feedback (gameId : string) (guessData : guess_data)
    (isWin gameOver : bool)
| opponent_guess (gameId : string) (guessData : guess_data)
| opponent_game_status (gameId : string) (opponentWon opponentLost : bool)
| opponent_disconnected (gameId : string).

(** [io.emit] reaches every connection; [socket.emit] and
    [io.to(id).emit] reach the connection named. *)
Inductive target : Type :=
| everyone
| only (sock : string).

Definition emission : Type := target * message.

(** A handler either runs to its end, leaving a new state and the
    notifications it sent in order, or throws a [TypeError] (spreading a
    [null] secret) before it has changed or sent anything. *)
Inductive completion : Type :=
| Normal (st : state) (out : list emission)
| TypeError.

Definition secrets_not_ready_msg : string :=
  "I codici segreti non sono ancora stati entrambi impostati".

Definition attempts_exhausted_msg : string :=
  "Hai già esaurito tutti i tentativi".

(** ** The handlers *)

Definition register_user (st : state) (sock : string) (userData : user_data)
  : state * list emission :=
  let uname :=
    match userData with
    | ud_string s => Some s
    | ud_object u => u
    end in
  let u := {| username := uname; socketId := sock; status := "online" |} in
  let users := JsMap.set (onlineUsers st) sock u in
  (with_users st users, [(everyone, users_list_update (JsMap.values users))]).

Definition get_users (st : state) (sock : string) : state * list emission :=
  (st, [(only sock, users_list_update (JsMap.values (onlineUsers st)))]).

Definition send_challenge (st : state) (sock targetSocketId : string)
  : state * list emission :=
  match JsMap.get (onlineUsers st) sock with
  | Some challenger =>
      if JsMap.has (onlineUsers st) targetSocketId
      then (st, [(only targetSocketId,
                  challenge_received (username challenger) sock)])
      else (st, [])
  | None => (st, [])
  end.

(** [`${n}`] for the integer [Date.now()] returns. *)
Definition string_of_Z (n : Z) : string := NilZero.string_of_int (Z.to_int n).

(** [`${challengerId}_${socket.id}_${Date.now()}`] *)
Definition make_gameId (challengerId sock : string) (now : Z) : string :=
  challengerId +:+ "_" +:+ sock +:+ "_" +:+ string_of_Z now.

Definition new_game (challengerId sock : string) : game :=
  {| player1 := challengerId; player2 := sock;
     secret1 := None; secret2 := None;
     guesses1 := []; guesses2 := [];
     bothCodesSet := false |}.

(** [now] is the value [Date.now()] returns while the handler runs. *)
Definition accept_challenge (st : state) (sock challengerId : string) (now : Z)
  : state * list emission :=
  match JsMap.get (onlineUsers st) sock,
        JsMap.get (onlineUsers st) challengerId with
  | Some accepter, Some challenger =>
      let gameId := make_gameId challengerId sock now in
      (with_games st
         (JsMap.set (activeGames st) gameId (new_game challengerId sock)),
       [(only challengerId,
         challenge_accepted (username accepter) sock gameId "player1");
        (only sock,
         challenge_accepted (username challenger) challengerId gameId
           "player2")])
  | _, _ => (st, [])
  end.

(** [x && y] on two secrets: an array is truthy, [null] is not. *)
Definition both_truthy (s1 s2 : option (list Z)) : bool :=
  match s1, s2 with
  | Some _, Some _ => true
  | _, _ => false
  end.

Definition set_secret_code (st : state) (sock gameId : string)
    (secretCode : list Z) : state * list emission :=
  match JsMap.get (activeGames st) gameId with
  | None => (st, [])
  | Some g =>
      let isPlayer1 := String.eqb (player1 g) sock in
      let isPlayer2 := String.eqb (player2 g) sock in
      if negb isPlayer1 && negb isPlayer2 then (st, [])
      else
        let g1 :=
          if isPlayer1 then set_secret1 g secretCode
          else if isPlayer2 then set_secret2 g secretCode
          else g in
        if both_truthy (secret1 g1) (secret2 g1) then
          let g2 := set_bothCodesSet g1 in
          (with_games st (JsMap.set (activeGames st) gameId g2),
           [(only (player1 g2), both_codes_set gameId);
            (only (player2 g2), both_codes_set gameId)])
        else
          let opponentSocketId :=
            if isPlayer1 then player2 g1 else player1 g1 in
          (with_games st (JsMap.set (activeGames st) gameId g1),
           [(only opponentSocketId, opponent_code_set gameId)])
  end.

(** [guess.every((val, idx) => val === targetSecret[idx])] *)
Fixpoint every_eq_from (gs : list Z) (targetSecret : list Z) (idx : nat) : bool :=
  match gs with
  | [] => true
  | val :: gs' =>
      if strict_eq_at val (targetSecret !! idx)
      then every_eq_from gs' targetSecret (S idx)
      else false
  end.

Definition every_eq (gs targetSecret : list Z) : bool :=
  every_eq_from gs targetSecret 0.

Definition submit_guess (st : state) (sock gameId : string) (gs : list Z)
  : completion :=
  match JsMap.get (activeGames st) gameId with
  | None => Normal st []
  | Some g =>
      if negb (bothCodesSet g) then
        Normal st [(only sock, guess_error gameId secrets_not_ready_msg)]
      else
        let isPlayer1 := String.eqb (player1 g) sock in
        let isPlayer2 := String.eqb (player2 g) sock in
        if negb isPlayer1 && negb isPlayer2 then Normal st []
        else
          let targetSecret := if isPlayer1 then secret2 g else secret1 g in
          let guessesArray := if isPlayer1 then guesses1 g else guesses2 g in
          if (10 <=? length guessesArray)%nat then
            Normal st [(only sock, guess_error gameId attempts_exhausted_msg)]
          else
            match targetSecret with
            | None => TypeError
            | Some secret =>
                let guessData :=
                  {| guess := gs; feedback := calculateFeedback secret gs |} in
                let g' :=
                  if isPlayer1 then push_guesses1 g guessData
                  else push_guesses2 g guessData in
                let guessesArray' :=
                  if isPlayer1 then guesses1 g' else guesses2 g' in
                let isWin := every_eq gs secret in
                let gameOver := (10 <=? length guessesArray')%nat || isWin in
                let opponentSocketId :=
                  if isPlayer1 then player2 g' else player1 g' in
                Normal
                  (with_games st (JsMap.set (activeGames st) gameId g'))
                  ([(only sock, guess_feedback gameId guessData isWin gameOver);
                    (only opponentSocketId, opponent_guess gameId guessData)]
                   ++ (if gameOver
                       then [(only opponentSocketId,
                              opponent_game_status gameId isWin
                                (negb isWin
                                 && (10 <=? length guessesArray')%nat))]
                       else []))
            end
  end.

(** A socket id used as a condition: the empty string is falsy. *)
Definition truthy (s : string) : bool := negb (String.eqb s "").

(** The body of the loop over [activeGames.entries()] for one entry, given
    the games kept so far; [users] is [onlineUsers] after the removal. *)
Definition disconnect_entry (users : JsMap.t user) (sock : string)
    (acc : JsMap.t game * list emission) (entry : string * game)
  : JsMap.t game * list emission :=
  let '(games, out) := acc in
  let '(gameId, g) := entry in
  if String.eqb (player1 g) sock || String.eqb (player2 g) sock then
    let opponentSocketId :=
      if String.eqb (player1 g) sock then player2 g else player1 g in
    let out' :=
      if truthy opponentSocketId && JsMap.has users opponentSocketId
      then out ++ [(only opponentSocketId, opponent_disconnected gameId)]
      else out in
    (JsMap.delete games gameId, out')
  else acc.

Definition disconnect (st : state) (sock : string) : state * list emission :=
  let '(users, out0) :=
    if JsMap.has (onlineUsers st) sock then
      let users := JsMap.delete (onlineUsers st) sock in
      (users, [(everyone, users_list_update (JsMap.values users))])
    else (onlineUsers st, []) in
  let '(games, out) :=
    foldl (disconnect_entry users sock) (activeGames st, out0)
      (JsMap.entries (activeGames st)) in
  ({| onlineUsers := users; activeGames := games |}, out).

(** ** Events and runs *)

Inductive event : Type :=
| ev_register_user (sock : string) (userData : user_data)
| ev_get_users (sock : string)
| ev_send_challenge (sock targetSocketId : string)
| ev_accept_challenge (sock challengerId : string) (now : Z)
| ev_set_secret_code (sock gameId : string) (secretCode : list Z)
| ev_submit_guess (sock gameId : string) (gs : list Z)
| ev_disconnect (sock : string).

Definition of_pair (r : state * list emission) : completion :=
  Normal (fst r) (snd r).

Definition handle (st : state) (ev : event) : completion :=
  match ev with
  | ev_register_user sock userData => of_pair (register_user st sock userData)
  | ev_get_users sock => of_pair (get_users st sock)
  | ev_send_challenge sock t => of_pair (send_challenge st sock t)
  | ev_accept_challenge sock c now => of_pair (accept_challenge st sock c now)
  | ev_set_secret_code sock gameId c => of_pair (set_secret_code st sock gameId c)
  | ev_submit_guess sock gameId gs => submit_guess st sock gameId gs
  | ev_disconnect sock => of_pair (disconnect st sock)
  end.

(** Events are handled one at a time, each to completion. *)
Fixpoint run (st : state) (evs : list event) : option (state * list emission) :=
  match evs with
  | [] => Some (st, [])
  | ev :: evs' =>
      match handle st ev with
      | Normal st' out =>
          match run st' evs' with
          | Some (st'', out') => Some (st'', out ++ out')
          | None => None
          end
      | TypeError => None
      end
  end.

Inductive reachable : state -> Prop :=
| reachable_initial : reachable initial
| reachable_step st ev st' out :
    reachable st -> handle st ev = Normal st' out -> reachable st'.

(** * Notions used to state the properties *)

(** Cells of a working copy that do not hold the marker [-1]. *)
Definition unconsumed (l : list Z) : nat :=
  length (filter (fun x => x <> -1) l).

(** A property of every value of a [Map]. *)
Definition everywhere {V} (P : V -> Prop) (m : JsMap.t V) : Prop :=
  Forall (fun kv => P (snd kv)) m.

(** A handler that returned [Normal st' out]: name what it returned. *)
Ltac returned :=
  let H := fresh "Hret" in
  intros H; inversion H; subst; clear H.

(** The handler's locals, as functions of the session and the caller. *)
Definition is_participant (g : game) (sock : string) : bool :=
  String.eqb (player1 g) sock || String.eqb (player2 g) sock.

Definition guessesArray (g : game) (sock : string) : list guess_data :=
  if String.eqb (player1 g) sock then guesses1 g else guesses2 g.

Definition targetSecret (g : game) (sock : string) : option (list Z) :=
  if String.eqb (player1 g) sock then secret2 g else secret1 g.

Definition opponentSocketId (g : game) (sock : string) : string :=
  if String.eqb (player1 g) sock then player2 g else player1 g.

(** Both rows hold at most ten guesses, and the flag is only up when
    neither secret is [null]. *)
Definition game_ok (g : game) : Prop :=
  (length (guesses1 g) <= 10)%nat /\
  (length (guesses2 g) <= 10)%nat /\
  (bothCodesSet g = true -> both_truthy (secret1 g) (secret2 g) = true).

Definition store_ok (st : state) : Prop :=
  everywhere game_ok (activeGames st).

(** The scoring policy as the specification words it.  Cells are consumed
    by an explicit mark ([None]) instead of a value of the palette: pass 1
    consumes every position where the two codes agree; pass 2 walks the
    unconsumed secret values left to right and consumes the first
    unconsumed guess cell of the same value. *)
Fixpoint spec_exact (secret guess : list Z)
  : list (option Z) * list (option Z) * nat :=
  match secret, guess with
  | s :: secret', g :: guess' =>
      let '(sr, gr, n) := spec_exact secret' guess' in
      if s =? g then (None :: sr, None :: gr, S n)
      else (Some s :: sr, Some g :: gr, n)
  | _, _ => ([], [], 0%nat)
  end.

Fixpoint spec_consume_first (v : Z) (gr : list (option Z))
  : option (list (option Z)) :=
  match gr with
  | [] => None
  | Some g :: gr' =>
      if g =? v then Some (None :: gr')
      else option_map (cons (Some g)) (spec_consume_first v gr')
  | None :: gr' => option_map (cons None) (spec_consume_first v gr')
  end.

Fixpoint spec_color (sr gr : list (option Z)) : nat :=
  match sr with
  | [] => 0%nat
  | None :: sr' => spec_color sr' gr
  | Some v :: sr' =>
      match spec_consume_first v gr with
      | Some gr' => S (spec_color sr' gr')
      | None => spec_color sr' gr
      end
  end.

(** [(exact pegs, color pegs)] *)
Definition spec_score (secret guess : list Z) : nat * nat :=
  let '(sr, gr, n) := spec_exact secret guess in
  (n, spec_color sr gr).

(** The working copy that stands for a list of marked cells: a consumed
    cell reads [-1]. *)
Definition erase (cells : list (option Z)) : list Z :=
  map (fun cell => match cell with Some v => v | None => -1 end) cells.

(** [guessesArray.push(guessData)] on the caller's row. *)
Definition push_guess (g : game) (sock : string) (d : guess_data) : game :=
  if String.eqb (player1 g) sock then push_guesses1 g d
  else push_guesses2 g d.

(** The exits of [submit_guess] that append nothing, by the names the
    specification gives them, in the order the handler tests them. *)
Inductive failure : Type :=
| SessionNotFound
| SecretsNotReady
| NotAParticipant
| AttemptsExhausted.

Definition guess_failure (st : state) (sock gameId : string)
  : option failure :=
  match JsMap.get (activeGames st) gameId with
  | None => Some SessionNotFound
  | Some g =>
      if negb (bothCodesSet g) then Some SecretsNotReady
      else if negb (is_participant g sock) then Some NotAParticipant
      else if (10 <=? length (guessesArray g sock))%nat
           then Some AttemptsExhausted
      else None
  end.

(** The exits of [set_secret_code] that store nothing. *)
Definition secret_failure (st : state) (sock gameId : string)
  : option failure :=
  match JsMap.get (activeGames st) gameId with
  | None => Some SessionNotFound
  | Some g =>
      if negb (is_participant g sock) then Some NotAParticipant else None
  end.

Definition emitted (c : completion) : list emission :=
  match c with
  | Normal _ out => out
  | TypeError => []
  end.

(** A match between two connections, for the examples. *)
Definition match_id : string := "A_B_1700000000000".

(** A and B register, A challenges B, B accepts, A commits [1,2,3,4] and
    B commits [4,3,2,1]. *)
Definition match_setup : list event :=
  [ev_register_user "A" (ud_string "alice");
   ev_register_user "B" (ud_object (Some "bob"));
   ev_send_challenge "A" "B";
   ev_accept_challenge "B" "A" 1700000000000;
   ev_set_secret_code "A" match_id [1; 2; 3; 4];
   ev_set_secret_code "B" match_id [4; 3; 2; 1]].

Definition state_after (evs : list event) : state :=
  match run initial evs with
  | Some (st, _) => st
  | None => initial
  end.

Definition match_ready : state := state_after match_setup.

(** The same match after A has used nine attempts. *)
Definition match_nine : state :=
  state_after
    (match_setup ++ replicate 9 (ev_submit_guess "A" match_id [1; 1; 1; 1])).

Definition match_game (st : state) : game :=
  match JsMap.get (activeGames st) match_id with
  | Some g => g
  | None => new_game "" ""
  end.

(** The contract of [send_challenge] as the specification states it: silent
    exactly when the target is absent, and otherwise forwarding
    [challenge_received] with the challenger's identity. *)
Definition send_challenge_as_stated (st : state) (sock targetSocketId : string)
  : Prop :=
  (send_challenge st sock targetSocketId = (st, [])
   <-> JsMap.has (onlineUsers st) targetSocketId = false) /\
  (JsMap.has (onlineUsers st) targetSocketId = true ->
   exists uname,
     send_challenge st sock targetSocketId =
       (st, [(only targetSocketId, challenge_received uname sock)])).

(** The slot [set_secret_code] writes for the caller. *)
Definition own_secret (g : game) (sock : string) : option (list Z) :=
  if String.eqb (player1 g) sock then secret1 g else secret2 g.

Definition other_secret (g : game) (sock : string) : option (list Z) :=
  if String.eqb (player1 g) sock then secret2 g else secret1 g.

(** The session [set_secret_code] leaves in the store for a participant. *)
Definition write_secret (g : game) (sock : string) (c : list Z) : game :=
  let g1 :=
    if String.eqb (player1 g) sock then set_secret1 g c
    else set_secret2 g c in
  if both_truthy (secret1 g1) (secret2 g1) then set_bothCodesSet g1 else g1.

(** What an event creates: the identifier and the fresh session of an
    [accept_challenge]. *)
Definition creates (ev : event) (gameId : string) (g : game) : Prop :=
  exists sock challengerId now,
    ev = ev_accept_challenge sock challengerId now /\
    gameId = make_gameId challengerId sock now /\
    g = new_game challengerId sock.

(** ** Notions for the further properties *)

(** The positions at which both codes have an element and the two
    elements are equal. *)
Fixpoint agreeing (secret guess : list Z) : nat :=
  match secret, guess with
  | s :: secret', g :: guess' =>
      ((if (s =? g)%Z then 1 else 0) + agreeing secret' guess')%nat
  | _, _ => 0%nat
  end.

(** The keys of a [Map], in iteration order. *)
Definition keys {V} (m : JsMap.t V) : list string := map fst m.

(** An entry of [onlineUsers] as [register_user] writes it. *)
Definition user_entry_ok (kv : string * user) : Prop :=
  socketId (snd kv) = fst kv /\ status (snd kv) = "online".

(** The identifiers of the sessions [sock] takes part in, in iteration
    order. *)
Fixpoint sessions_of (sock : string) (entries : list (string * game))
  : list string :=
  match entries with
  | [] => []
  | (gameId, g) :: rest =>
      if is_participant g sock then gameId :: sessions_of sock rest
      else sessions_of sock rest
  end.

(** The [opponent_disconnected] notices of the loop of [disconnect], in
    iteration order. *)
Fixpoint disconnect_notices (users : JsMap.t user) (sock : string)
    (entries : list (string * game)) : list emission :=
  match entries with
  | [] => []
  | (gameId, g) :: rest =>
      (if is_participant g sock
          && truthy (opponentSocketId g sock)
          && JsMap.has users (opponentSocketId g sock)
       then [(only (opponentSocketId g sock), opponent_disconnected gameId)]
       else [])
      ++ disconnect_notices users sock rest
  end.

(** What holds of a session in every state the handlers can reach: the
    flag mirrors the two slots, no guess is recorded before the flag is up,
    and a session of one connection with itself never fills its second
    slot. *)
Definition game_inv (g : game) : Prop :=
  bothCodesSet g = both_truthy (secret1 g) (secret2 g) /\
  (bothCodesSet g = false -> guesses1 g = [] /\ guesses2 g = []) /\
  (player1 g = player2 g -> secret2 g = None).

Definition players_online (st : state) : Prop :=
  everywhere
    (fun g => JsMap.has (onlineUsers st) (player1 g) = true /\
              JsMap.has (onlineUsers st) (player2 g) = true)
    (activeGames st).

Definition lobby_ok (st : state) : Prop :=
  Forall user_entry_ok (onlineUsers st) /\
  NoDup (keys (onlineUsers st)) /\
  NoDup (keys (activeGames st)) /\
  players_online st /\
  everywhere game_inv (activeGames st).

(** The row of the caller's opponent. *)
Definition opponentArray (g : game) (sock : string) : list guess_data :=
  if String.eqb (player1 g) sock then guesses2 g else guesses1 g.

(** The values of the cells that are not consumed, in order. *)
Fixpoint live (cells : list (option Z)) : list Z :=
  match cells with
  | [] => []
  | Some v :: cells' => v :: live cells'
  | None :: cells' => live cells'
  end.

Fixpoint occurs (v : Z) (l : list Z) : bool :=
  match l with
  | [] => false
  | x :: l' => (x =? v) || occurs v l'
  end.

Fixpoint remove_first (v : Z) (l : list Z) : list Z :=
  match l with
  | [] => []
  | x :: l' => if x =? v then l' else x :: remove_first v l'
  end.

(** How many elements of [xs], taken left to right, find a partner of
    their value among the elements of [ys] not yet taken. *)
Fixpoint matching (xs ys : list Z) : nat :=
  match xs with
  | [] => 0%nat
  | x :: xs' =>
      if occurs x ys then S (matching xs' (remove_first x ys))
      else matching xs' ys
  end.

(** * Properties of the feedback helper *)

Section Feedback.

Lemma unconsumed_snoc_marker l : unconsumed (l ++ [-1]) = unconsumed l.
Proof.
  unfold unconsumed. rewrite filter_app, length_app.
  rewrite filter_cons_False by (intros H; now apply H). simpl. lia.
Qed.

Lemma unconsumed_snoc l x : (unconsumed (l ++ [x]) <= S (unconsumed l))%nat.
Proof.
  unfold unconsumed. rewrite filter_app, length_app.
  destruct (decide (x <> -1)) as [Hx | Hx].
  - rewrite filter_cons_True by exact Hx. simpl. lia.
  - rewrite filter_cons_False by exact Hx. simpl. lia.
Qed.

Lemma unconsumed_cons_marker l : unconsumed (-1 :: l) = unconsumed l.
Proof.
  unfold unconsumed. now rewrite filter_cons_False by (intros H; now apply H).
Qed.

Lemma unconsumed_cons_le l x : (unconsumed l <= unconsumed (x :: l))%nat.
Proof.
  unfold unconsumed. destruct (decide (x <> -1)) as [Hx | Hx].
  - rewrite filter_cons_True by exact Hx. simpl. lia.
  - rewrite filter_cons_False by exact Hx. lia.
Qed.

Lemma unconsumed_cons_live l x :
  x <> -1 -> unconsumed (x :: l) = S (unconsumed l).
Proof.
  intros Hx. unfold unconsumed. now rewrite filter_cons_True by exact Hx.
Qed.

Lemma unconsumed_insert_marker (l : list Z) (i : nat) :
  (unconsumed (<[i := (-1)%Z]> l) <= unconsumed l)%nat.
Proof.
  revert i. induction l as [| x l IH]; intros [| i]; simpl; try lia.
  - rewrite unconsumed_cons_marker. apply unconsumed_cons_le.
  - specialize (IH i). destruct (decide (x <> -1)) as [Hx | Hx].
    + rewrite !unconsumed_cons_live by exact Hx. lia.
    + assert (x = -1) as -> by lia. now rewrite !unconsumed_cons_marker.
Qed.

Lemma unconsumed_le_length l : (unconsumed l <= length l)%nat.
Proof. unfold unconsumed. apply length_filter. Qed.

(** One more index of the first loop. *)
Lemma blacks_prefix_S secret guess n :
  foldl blacks_step (secret, guess, 0%nat) (seq 0 (S n)) =
  blacks_step (foldl blacks_step (secret, guess, 0%nat) (seq 0 n)) n.
Proof. now rewrite seq_S, foldl_app. Qed.

(** After the first [n] indices: the copies keep their lengths, and the
    exact pegs so far plus the unconsumed cells among the first [n] of
    [secretCopy] are at most [n]; no cell has come back to life. *)
Lemma blacks_prefix_inv secret guess n :
  (n <= length secret)%nat ->
  let '(secretCopy, guessCopy, nblack) :=
    foldl blacks_step (secret, guess, 0%nat) (seq 0 n) in
  length secretCopy = length secret /\
  length guessCopy = length guess /\
  (nblack + unconsumed (take n secretCopy) <= n)%nat /\
  (unconsumed secretCopy <= unconsumed secret)%nat.
Proof.
  induction n as [| n IH]; intros Hn.
  - simpl. rewrite take_0. change (unconsumed []) with 0%nat.
    repeat split; lia.
  - rewrite blacks_prefix_S.
    destruct (foldl blacks_step (secret, guess, 0%nat) (seq 0 n))
      as [[sc gc] b].
    destruct IH as (Hsc & Hgc & Hcount & Hlive); [lia |].
    unfold blacks_step.
    destruct (sc !! n) as [val |] eqn:Hval.
    + destruct (strict_eq_at val (gc !! n)).
      * rewrite !length_insert. repeat split; try assumption.
        -- rewrite (take_S_r _ _ (-1)).
           ++ rewrite take_insert_ge by lia.
              rewrite unconsumed_snoc_marker. lia.
           ++ apply list_lookup_insert_eq. lia.
        -- pose proof (unconsumed_insert_marker sc n). lia.
      * repeat split; try assumption.
        rewrite (take_S_r _ _ val) by exact Hval.
        pose proof (unconsumed_snoc (take n sc) val). lia.
    + apply lookup_ge_None in Hval. lia.
Qed.

Lemma blacks_pass_inv secret guess :
  let '(secretCopy, guessCopy, nblack) := blacks_pass secret guess in
  length secretCopy = length secret /\
  length guessCopy = length guess /\
  (nblack + unconsumed secretCopy <= length secret)%nat /\
  (unconsumed secretCopy <= unconsumed secret)%nat.
Proof.
  unfold blacks_pass.
  pose proof (blacks_prefix_inv secret guess (length secret) (le_n _)) as H.
  destruct (foldl blacks_step (secret, guess, 0%nat) (seq 0 (length secret)))
    as [[sc gc] b].
  destruct H as (Hsc & Hgc & Hcount & Hlive).
  rewrite firstn_all2 in Hcount by lia. auto.
Qed.

(** The second loop awards at most one color peg per unconsumed cell of
    [secretCopy]. *)
Lemma whites_fold_le secretCopy : forall guessCopy nwhite,
  (snd (foldl whites_step (guessCopy, nwhite) secretCopy)
   <= nwhite + unconsumed secretCopy)%nat.
Proof.
  induction secretCopy as [| val sc IH]; intros gc w; simpl.
  - lia.
  - destruct (Z.eqb_spec val (-1)) as [-> | Hval]; simpl.
    + rewrite unconsumed_cons_marker. apply IH.
    + rewrite unconsumed_cons_live by exact Hval.
      destruct (negb (indexOf gc val =? -1)).
      * etransitivity; [apply IH | lia].
      * etransitivity; [apply IH | lia].
Qed.

(** A marker in [secretCopy] is passed over by the second loop. *)
Lemma whites_step_marker guessCopy nwhite :
  whites_step (guessCopy, nwhite) (-1) = (guessCopy, nwhite).
Proof. reflexivity. Qed.

Lemma exactCount_pegs b w :
  exactCount (replicate b black ++ replicate w white) = b.
Proof.
  unfold exactCount. rewrite filter_app, length_app.
  assert (filter (eq black) (replicate b black) = replicate b black) as ->.
  { induction b as [| b IH]; [reflexivity |].
    simpl. rewrite filter_cons_True by reflexivity. now rewrite IH. }
  assert (filter (eq black) (replicate w white) = []) as ->.
  { induction w as [| w IH]; [reflexivity |].
    simpl. now rewrite filter_cons_False by discriminate. }
  rewrite length_replicate. simpl. lia.
Qed.

Lemma colorCount_pegs b w :
  colorCount (replicate b black ++ replicate w white) = w.
Proof.
  unfold colorCount. rewrite filter_app, length_app.
  assert (filter (eq white) (replicate b black) = []) as ->.
  { induction b as [| b IH]; [reflexivity |].
    simpl. now rewrite filter_cons_False by discriminate. }
  assert (filter (eq white) (replicate w white) = replicate w white) as ->.
  { induction w as [| w IH]; [reflexivity |].
    simpl. rewrite filter_cons_True by reflexivity. now rewrite IH. }
  rewrite length_replicate. simpl. lia.
Qed.

(** The counts of [calculateFeedback] in terms of its two loops. *)
Lemma calculateFeedback_counts secret guess :
  exists secretCopy guessCopy nblack guessCopy' nwhite,
    blacks_pass secret guess = (secretCopy, guessCopy, nblack) /\
    whites_pass secretCopy guessCopy = (guessCopy', nwhite) /\
    calculateFeedback secret guess =
      replicate nblack black ++ replicate nwhite white /\
    exactCount (calculateFeedback secret guess) = nblack /\
    colorCount (calculateFeedback secret guess) = nwhite /\
    length (calculateFeedback secret guess) = (nblack + nwhite)%nat.
Proof.
  unfold calculateFeedback.
  destruct (blacks_pass secret guess) as [[sc gc] b].
  destruct (whites_pass sc gc) as [gc' w] eqn:Hw.
  exists sc, gc, b, gc', w.
  rewrite exactCount_pegs, colorCount_pegs, length_app, !length_replicate.
  repeat split; first [reflexivity | exact Hw].
Qed.

Lemma calculateFeedback_bounds secret guess :
  (exactCount (calculateFeedback secret guess)
   + colorCount (calculateFeedback secret guess) <= length secret)%nat /\
  (colorCount (calculateFeedback secret guess) <= unconsumed secret)%nat /\
  length (calculateFeedback secret guess) =
    (exactCount (calculateFeedback secret guess)
     + colorCount (calculateFeedback secret guess))%nat.
Proof.
  destruct (calculateFeedback_counts secret guess)
    as (sc & gc & b & gc' & w & Hb & Hw & _ & -> & -> & ->).
  pose proof (blacks_pass_inv secret guess) as Hinv. rewrite Hb in Hinv.
  destruct Hinv as (_ & _ & Hcount & Hlive).
  pose proof (whites_fold_le sc gc 0%nat) as Hle.
  unfold whites_pass in Hw. rewrite Hw in Hle. simpl in Hle.
  repeat split; lia.
Qed.

(** Scoring a code against itself: every index is an exact match, and
    the second loop meets markers only. *)
Lemma blacks_prefix_self (c : list Z) (n : nat) :
  (n <= length c)%nat ->
  foldl blacks_step (c, c, 0%nat) (seq 0 n) =
    (replicate n (-1) ++ drop n c, replicate n (-1) ++ drop n c, n).
Proof.
  induction n as [| n IH]; intros Hn.
  - reflexivity.
  - rewrite blacks_prefix_S, IH by lia. unfold blacks_step.
    destruct (lookup_lt_is_Some_2 c n ltac:(lia)) as [v Hv].
    assert (Hcell : (replicate n (-1) ++ drop n c) !! n = Some v).
    { rewrite lookup_app_r by (rewrite length_replicate; lia).
      rewrite length_replicate, Nat.sub_diag, lookup_drop.
      now rewrite Nat.add_0_r. }
    rewrite Hcell. simpl. rewrite Z.eqb_refl.
    assert (Hins : <[n := -1]> (replicate n (-1) ++ drop n c)
                   = replicate (S n) (-1) ++ drop (S n) c).
    { rewrite insert_app_r_alt by (rewrite length_replicate; lia).
      rewrite length_replicate, Nat.sub_diag.
      rewrite (drop_S c v n Hv).
      change (<[0%nat := -1]> (v :: drop (S n) c))
        with ([-1] ++ drop (S n) c).
      now rewrite app_assoc, <- replicate_S_end. }
    now rewrite Hins.
Qed.

Lemma whites_fold_markers (n : nat) : forall guessCopy nwhite,
  foldl whites_step (guessCopy, nwhite) (replicate n (-1)) =
    (guessCopy, nwhite).
Proof. induction n as [| n IH]; intros gc w; simpl; [reflexivity | apply IH]. Qed.

Lemma calculateFeedback_self (c : list Z) :
  calculateFeedback c c = replicate (length c) black.
Proof.
  unfold calculateFeedback, blacks_pass.
  rewrite blacks_prefix_self by lia.
  rewrite drop_all, app_nil_r. unfold whites_pass.
  rewrite whites_fold_markers. simpl. apply app_nil_r.
Qed.

(** ** The helper against the policy with explicit marks *)

Lemma blacks_fold_spec (secret : list Z) : forall guess pre_s pre_g nblack,
  length secret = length guess ->
  length pre_s = length pre_g ->
  foldl blacks_step (pre_s ++ secret, pre_g ++ guess, nblack)
    (seq (length pre_s) (length secret)) =
  let '(sr, gr, n) := spec_exact secret guess in
  (pre_s ++ erase sr, pre_g ++ erase gr, (nblack + n)%nat).
Proof.
  induction secret as [| s secret IH]; intros [| g guess] pre_s pre_g b Hlen Hpre;
    try discriminate Hlen.
  - simpl. now rewrite !app_nil_r, Nat.add_0_r.
  - simpl in Hlen. injection Hlen as Hlen.
    cbn [length seq foldl]. unfold blacks_step at 2.
    rewrite (list_lookup_middle pre_s secret s (length pre_s) eq_refl).
    rewrite (list_lookup_middle pre_g guess g (length pre_s) Hpre).
    cbn [strict_eq_at spec_exact].
    specialize (IH guess).
    destruct (spec_exact secret guess) as [[sr gr] n].
    destruct (s =? g).
    + rewrite (insert_app_r_alt pre_s) by lia.
      rewrite (insert_app_r_alt pre_g) by lia.
      replace (length pre_s - length pre_g)%nat with 0%nat by lia.
      rewrite Nat.sub_diag. cbn [insert list_insert].
      rewrite (cons_middle (-1) pre_s), (cons_middle (-1) pre_g), !app_assoc.
      specialize (IH (pre_s ++ [-1]) (pre_g ++ [-1]) (S b) Hlen).
      rewrite !length_app in IH. cbn [length] in IH.
      rewrite !Nat.add_1_r in IH. rewrite IH by lia.
      cbn [erase map]. rewrite <- !app_assoc. f_equal. lia.
    + rewrite (cons_middle s pre_s), (cons_middle g pre_g), !app_assoc.
      specialize (IH (pre_s ++ [s]) (pre_g ++ [g]) b Hlen).
      rewrite !length_app in IH. cbn [length] in IH.
      rewrite !Nat.add_1_r in IH. rewrite IH by lia.
      cbn [erase map]. now rewrite <- !app_assoc.
Qed.

Lemma blacks_pass_spec secret guess :
  length secret = length guess ->
  blacks_pass secret guess =
  let '(sr, gr, n) := spec_exact secret guess in (erase sr, erase gr, n).
Proof.
  intros Hlen. unfold blacks_pass.
  exact (blacks_fold_spec secret guess [] [] 0%nat Hlen eq_refl).
Qed.

(** [indexOf] finds the cell the policy consumes. *)
Lemma indexOf_from_spec (v : Z) (gr : list (option Z)) : forall i,
  v <> -1 -> 0 <= i ->
  match spec_consume_first v gr with
  | Some gr' =>
      exists k : nat,
        indexOf_from (erase gr) v i = i + Z.of_nat k /\
        <[k := -1]> (erase gr) = erase gr'
  | None => indexOf_from (erase gr) v i = -1
  end.
Proof.
  intros i Hv. revert i.
  induction gr as [| [g |] gr IH]; intros i Hi; cbn [spec_consume_first erase map indexOf_from].
  - reflexivity.
  - destruct (g =? v).
    + exists 0%nat. split; [lia | reflexivity].
    + specialize (IH (i + 1) ltac:(lia)). fold (erase gr) in *.
      destruct (spec_consume_first v gr) as [gr' |]; cbn [option_map].
      * destruct IH as (k & Hk & Hins). exists (S k).
        split; [lia |]. cbn [insert list_insert erase map]. now f_equal.
      * exact IH.
  - destruct (Z.eqb_spec (-1) v) as [E | _]; [now symmetry in E |].
    specialize (IH (i + 1) ltac:(lia)). fold (erase gr) in *.
    destruct (spec_consume_first v gr) as [gr' |]; cbn [option_map].
    + destruct IH as (k & Hk & Hins). exists (S k).
      split; [lia |]. cbn [insert list_insert erase map]. now f_equal.
    + exact IH.
Qed.

Lemma whites_fold_spec (sr : list (option Z)) : forall gr nwhite,
  (forall v, In (Some v) sr -> v <> -1) ->
  snd (foldl whites_step (erase gr, nwhite) (erase sr)) =
    (nwhite + spec_color sr gr)%nat.
Proof.
  induction sr as [| [v |] sr IH]; intros gr w Hlive; cbn [erase map foldl spec_color].
  - simpl. lia.
  - fold (erase sr).
    assert (Hv : v <> -1) by (apply Hlive; now left).
    assert (Hrest : forall v', In (Some v') sr -> v' <> -1)
      by (intros v' H; apply Hlive; now right).
    unfold whites_step at 2. destruct (Z.eqb_spec v (-1)); [contradiction |].
    cbn [negb]. unfold indexOf.
    pose proof (indexOf_from_spec v gr 0 Hv ltac:(lia)) as Hidx.
    destruct (spec_consume_first v gr) as [gr' |].
    + destruct Hidx as (k & -> & Hins).
      destruct (Z.eqb_spec (0 + Z.of_nat k) (-1)); [lia |]. cbn [negb].
      replace (Z.to_nat (0 + Z.of_nat k)) with k by lia.
      rewrite Hins, IH by exact Hrest. lia.
    + rewrite Hidx. cbn. apply IH, Hrest.
  - fold (erase sr). rewrite whites_step_marker. apply IH.
    intros v H. apply Hlive. now right.
Qed.

Lemma spec_exact_live (secret : list Z) : forall guess v,
  In (Some v) (fst (fst (spec_exact secret guess))) -> In v secret.
Proof.
  induction secret as [| s secret IH]; intros [| g gs] v; simpl;
    try contradiction.
  specialize (IH gs v).
  destruct (spec_exact secret gs) as [[sr gr] n].
  destruct (s =? g); simpl in *; intros [H | H]; auto; try discriminate.
  injection H as ->. now left.
Qed.

(** X4: on codes of equal length whose secret does not contain [-1], the
    helper awards the pegs of the two-pass first-occurrence policy: exact
    pegs for the agreeing positions, then one color peg for each remaining
    secret element, left to right, that finds a remaining guess element of
    its value, which it consumes. *)
Theorem calculateFeedback_implements_policy (secret guess : list Z) :
  length secret = length guess ->
  ~ In (-1) secret ->
  (exactCount (calculateFeedback secret guess),
   colorCount (calculateFeedback secret guess)) = spec_score secret guess.
Proof.
  intros Hlen Hfree.
  destruct (calculateFeedback_counts secret guess)
    as (sc & gc & b & gc' & w & Hb & Hw & _ & -> & -> & _).
  rewrite (blacks_pass_spec secret guess Hlen) in Hb.
  unfold spec_score.
  pose proof (spec_exact_live secret guess) as Hlive.
  destruct (spec_exact secret guess) as [[sr gr] n].
  injection Hb as <- <- <-.
  pose proof (whites_fold_spec sr gr 0%nat) as Hcolor.
  unfold whites_pass in Hw. rewrite Hw in Hcolor. simpl in Hcolor, Hlive.
  rewrite Hcolor; [reflexivity |].
  intros v Hin ->. exact (Hfree (Hlive _ Hin)).
Qed.

End Feedback.

(** * Properties of the [Map] operations *)

Module JsMapFacts.
Import JsMap.

Section WithValues.
Context {V : Type}.
Implicit Types (m : t V) (k : string) (v : V).

Lemma get_set_eq m k v : get (set m k v) k = Some v.
Proof.
  induction m as [| [k' v'] m IH]; simpl.
  - now rewrite String.eqb_refl.
  - destruct (String.eqb k' k) eqn:E; simpl.
    + now rewrite String.eqb_refl.
    + now rewrite E.
Qed.

Lemma get_set_ne m k k' v : k <> k' -> get (set m k v) k' = get m k'.
Proof.
  intros Hne. induction m as [| [k0 v0] m IH]; simpl.
  - destruct (String.eqb_spec k k'); [contradiction | reflexivity].
  - destruct (String.eqb_spec k0 k) as [-> | Hk0]; simpl.
    + destruct (String.eqb_spec k k'); [contradiction | reflexivity].
    + now rewrite IH.
Qed.

Lemma get_delete_eq m k : get (delete m k) k = None.
Proof.
  induction m as [| [k0 v0] m IH]; simpl; [reflexivity |].
  destruct (String.eqb k0 k) eqn:E; simpl; [exact IH | now rewrite E].
Qed.

Lemma get_delete_ne m k k' : k <> k' -> get (delete m k) k' = get m k'.
Proof.
  intros Hne. induction m as [| [k0 v0] m IH]; simpl; [reflexivity |].
  destruct (String.eqb_spec k0 k) as [-> | Hk0]; simpl.
  - destruct (String.eqb_spec k k'); [contradiction | exact IH].
  - now rewrite IH.
Qed.

(** A lookup that succeeds after a removal succeeded before it. *)
Lemma get_delete_Some m k k' v :
  get (delete m k) k' = Some v -> get m k' = Some v.
Proof.
  destruct (String.eqb_spec k k') as [-> | Hne].
  - now rewrite get_delete_eq.
  - now rewrite get_delete_ne.
Qed.

Lemma has_true m k : has m k = true <-> exists v, get m k = Some v.
Proof.
  unfold has. destruct (get m k) as [v |]; split;
    first [now eauto | now intros [? ?] | discriminate].
Qed.

Lemma has_false m k : has m k = false <-> get m k = None.
Proof. unfold has. now destruct (get m k). Qed.

Section Everywhere.
Variable P : V -> Prop.

Lemma everywhere_get m k v : everywhere P m -> get m k = Some v -> P v.
Proof.
  unfold everywhere. induction m as [| [k0 v0] m IH]; simpl.
  - discriminate.
  - intros Hall Hget. apply Forall_cons_1 in Hall as [H0 Hall].
    destruct (String.eqb k0 k); [injection Hget as <-; exact H0 | auto].
Qed.

Lemma everywhere_set m k v :
  everywhere P m -> P v -> everywhere P (set m k v).
Proof.
  unfold everywhere. intros Hall Hv.
  induction m as [| [k0 v0] m IH]; simpl.
  - now constructor.
  - apply Forall_cons_1 in Hall as [H0 Hall].
    destruct (String.eqb k0 k); constructor; auto.
Qed.

Lemma everywhere_delete m k : everywhere P m -> everywhere P (delete m k).
Proof.
  unfold everywhere. induction m as [| [k0 v0] m IH]; simpl; intros Hall.
  - constructor.
  - apply Forall_cons_1 in Hall as [H0 Hall].
    destruct (String.eqb k0 k); [auto | constructor; auto].
Qed.

End Everywhere.
End WithValues.
End JsMapFacts.

(** * Session invariants *)

Section Sessions.
Import JsMapFacts.

Lemma new_game_ok c sock : game_ok (new_game c sock).
Proof. unfold game_ok; simpl. repeat split; first [lia | discriminate]. Qed.

Lemma disconnect_fold_ok users sock entries : forall games out,
  everywhere game_ok games ->
  everywhere game_ok
    (fst (foldl (disconnect_entry users sock) (games, out) entries)).
Proof.
  induction entries as [| [gameId g] entries IH]; intros games out Hok; simpl.
  - exact Hok.
  - destruct (String.eqb (player1 g) sock || String.eqb (player2 g) sock).
    + apply IH. now apply everywhere_delete.
    + now apply IH.
Qed.

(** The loop of [disconnect] only ever removes sessions. *)
Lemma disconnect_fold_get users sock entries : forall games out k v,
  JsMap.get
    (fst (foldl (disconnect_entry users sock) (games, out) entries)) k
    = Some v ->
  JsMap.get games k = Some v.
Proof.
  induction entries as [| [gameId g] entries IH]; intros games out k v; simpl.
  - auto.
  - destruct (String.eqb (player1 g) sock || String.eqb (player2 g) sock).
    + intros H. apply IH in H. now apply get_delete_Some in H.
    + apply IH.
Qed.

Lemma disconnect_games st sock :
  activeGames (fst (disconnect st sock)) =
  fst (foldl
         (disconnect_entry
            (if JsMap.has (onlineUsers st) sock
             then JsMap.delete (onlineUsers st) sock else onlineUsers st)
            sock)
         (activeGames st,
          if JsMap.has (onlineUsers st) sock
          then [(everyone,
                 users_list_update
                   (JsMap.values (JsMap.delete (onlineUsers st) sock)))]
          else [])
         (JsMap.entries (activeGames st))).
Proof.
  unfold disconnect.
  destruct (JsMap.has (onlineUsers st) sock);
    match goal with
    | |- context [foldl ?f ?a ?l] => destruct (foldl f a l)
    end; reflexivity.
Qed.

Lemma set_secret_code_ok st sock gameId c :
  store_ok st -> store_ok (fst (set_secret_code st sock gameId c)).
Proof.
  unfold store_ok, set_secret_code. intros Hok.
  destruct (JsMap.get (activeGames st) gameId) as [g |] eqn:Hg; [| exact Hok].
  pose proof (everywhere_get _ _ _ _ Hok Hg) as (H1 & H2 & H3).
  destruct (String.eqb (player1 g) sock), (String.eqb (player2 g) sock);
    simpl; try exact Hok.
  all: destruct (secret1 g) as [s1 |] eqn:E1, (secret2 g) as [s2 |] eqn:E2;
    simpl; apply everywhere_set; try exact Hok;
    unfold game_ok; simpl; rewrite ?E1, ?E2; repeat split; try assumption;
    auto.
Qed.

Lemma submit_guess_ok st sock gameId gs st' out :
  store_ok st -> submit_guess st sock gameId gs = Normal st' out ->
  store_ok st'.
Proof.
  unfold store_ok, submit_guess. intros Hok.
  destruct (JsMap.get (activeGames st) gameId) as [g |] eqn:Hg;
    [| now returned].
  pose proof (everywhere_get _ _ _ _ Hok Hg) as (H1 & H2 & H3).
  destruct (bothCodesSet g); cbn [negb]; [| now returned].
  destruct (String.eqb (player1 g) sock) eqn:P1; cbn [negb andb].
  - destruct (Nat.leb_spec 10 (length (guesses1 g))); [now returned |].
    destruct (secret2 g) eqn:Hs; [| discriminate].
    returned. apply everywhere_set; [exact Hok |].
    unfold game_ok; simpl. rewrite length_app. simpl.
    repeat split;
      first [lia | intros _; rewrite Hs; apply H3; reflexivity].
  - destruct (String.eqb (player2 g) sock) eqn:P2; cbn [negb];
      [| now returned].
    destruct (Nat.leb_spec 10 (length (guesses2 g))); [now returned |].
    destruct (secret1 g) eqn:Hs; [| discriminate].
    returned. apply everywhere_set; [exact Hok |].
    unfold game_ok; simpl. rewrite length_app. simpl.
    repeat split;
      first [lia | intros _; rewrite Hs; apply H3; reflexivity].
Qed.

Lemma handle_ok st ev st' out :
  store_ok st -> handle st ev = Normal st' out -> store_ok st'.
Proof.
  intros Hok. destruct ev; simpl; unfold of_pair.
  - returned. exact Hok.
  - returned. exact Hok.
  - returned. unfold send_challenge.
    destruct (JsMap.get (onlineUsers st) sock); [| exact Hok].
    destruct (JsMap.has (onlineUsers st) targetSocketId); exact Hok.
  - returned. unfold accept_challenge.
    destruct (JsMap.get (onlineUsers st) sock); [| exact Hok].
    destruct (JsMap.get (onlineUsers st) challengerId); [| exact Hok].
    apply everywhere_set; [exact Hok | apply new_game_ok].
  - returned. now apply set_secret_code_ok.
  - now apply submit_guess_ok.
  - returned. unfold store_ok. rewrite disconnect_games.
    now apply disconnect_fold_ok.
Qed.

Lemma reachable_ok st : reachable st -> store_ok st.
Proof.
  induction 1 as [| st ev st' out _ IH Hstep].
  - constructor.
  - exact (handle_ok _ _ _ _ IH Hstep).
Qed.

(** No handler throws in a state that can be reached. *)
Lemma handle_total st ev :
  store_ok st -> exists st' out, handle st ev = Normal st' out.
Proof.
  intros Hok. destruct ev; simpl; unfold of_pair; eauto.
  unfold submit_guess.
  destruct (JsMap.get (activeGames st) gameId) as [g |] eqn:Hg; eauto.
  pose proof (everywhere_get _ _ _ _ Hok Hg) as (_ & _ & H3).
  destruct (bothCodesSet g); cbn [negb]; eauto.
  specialize (H3 eq_refl).
  destruct (secret1 g), (secret2 g); try discriminate.
  destruct (negb (String.eqb (player1 g) sock)
            && negb (String.eqb (player2 g) sock)); eauto.
  destruct (String.eqb (player1 g) sock);
    match goal with |- context [Nat.leb ?a ?b] => destruct (Nat.leb a b) end;
    eauto.
Qed.

End Sessions.

(** * The claims about the feedback helper *)

(** C1, as the specification states it: on secret [1,1,2,3] and guess
    [1,2,2,2] the helper would award one exact and one color peg.  It does
    not: positions 0 and 2 both agree. *)
Lemma worked_example_counts_refuted :
  ~ (exactCount (calculateFeedback [1;1;2;3] [1;2;2;2]) = 1%nat /\
     colorCount (calculateFeedback [1;1;2;3] [1;2;2;2]) = 1%nat).
Proof. vm_compute. intros [H _]. discriminate H. Qed.

(** C1, amended: on secret [1,1,2,3] and guess [1,2,2,2] the helper returns
    two exact pegs (positions 0 and 2) and no color peg, and so does the
    two-pass policy of the specification. *)
Theorem calculateFeedback_duplicates :
  calculateFeedback [1;1;2;3] [1;2;2;2] = [black; black] /\
  exactCount (calculateFeedback [1;1;2;3] [1;2;2;2]) = 2%nat /\
  colorCount (calculateFeedback [1;1;2;3] [1;2;2;2]) = 0%nat /\
  spec_score [1;1;2;3] [1;2;2;2] = (2%nat, 0%nat).
Proof. repeat split; reflexivity. Qed.

(** C2: for codes of equal length [L], the exact pegs are between 0 and
    [L], exact plus color pegs are at most [L], and the returned array has
    at most [L] elements. *)
Theorem calculateFeedback_peg_bounds (L : nat) (secret guess : list Z) :
  length secret = L -> length guess = L ->
  (0 <= exactCount (calculateFeedback secret guess) <= L)%nat /\
  (exactCount (calculateFeedback secret guess)
   + colorCount (calculateFeedback secret guess) <= L)%nat /\
  (length (calculateFeedback secret guess) <= L)%nat.
Proof.
  intros Hs _.
  destruct (calculateFeedback_bounds secret guess) as (Hsum & _ & Hlen).
  lia.
Qed.

Lemma calculateFeedback_peg_bounds_witness :
  (0 <= exactCount (calculateFeedback [1;1;2;3]%Z [1;2;2;2]%Z) <= 4)%nat /\
  (exactCount (calculateFeedback [1;1;2;3]%Z [1;2;2;2]%Z)
   + colorCount (calculateFeedback [1;1;2;3]%Z [1;2;2;2]%Z) <= 4)%nat /\
  (length (calculateFeedback [1;1;2;3]%Z [1;2;2;2]%Z) <= 4)%nat.
Proof.
  apply (calculateFeedback_peg_bounds 4 [1;1;2;3]%Z [1;2;2;2]%Z); reflexivity.
Defined.

(** C8: [-1] doubles as the consumed marker.  The second loop passes over
    a secret cell holding [-1], so the color pegs never exceed the number
    of secret elements other than [-1]; on secret [-1,2] and guess [2,-1]
    the helper awards one color peg where the stated policy awards two. *)
Theorem calculateFeedback_marker_in_palette :
  (forall guessCopy nwhite,
     whites_step (guessCopy, nwhite) (-1) = (guessCopy, nwhite)) /\
  (forall secret guess,
     (colorCount (calculateFeedback secret guess) <= unconsumed secret)%nat) /\
  length [-1; 2] = length [2; -1] /\
  calculateFeedback [-1; 2] [2; -1] = [white] /\
  spec_score [-1; 2] [2; -1] = (0%nat, 2%nat).
Proof.
  split; [exact whites_step_marker |].
  split; [intros secret guess; apply calculateFeedback_bounds |].
  repeat split; reflexivity.
Qed.

(** * What [submit_guess] does on each of its paths *)

Section SubmitGuess.
Import JsMapFacts.

Lemma guessesArray_push g sock d :
  guessesArray (push_guess g sock d) sock = guessesArray g sock ++ [d].
Proof.
  unfold guessesArray, push_guess.
  destruct (String.eqb (player1 g) sock) eqn:E; simpl; now rewrite E.
Qed.

Lemma submit_guess_not_found st sock gameId gs :
  JsMap.get (activeGames st) gameId = None ->
  submit_guess st sock gameId gs = Normal st [].
Proof. intros H. unfold submit_guess. now rewrite H. Qed.

Lemma submit_guess_not_ready st sock gameId g gs :
  JsMap.get (activeGames st) gameId = Some g ->
  bothCodesSet g = false ->
  submit_guess st sock gameId gs =
    Normal st [(only sock, guess_error gameId secrets_not_ready_msg)].
Proof. intros H F. unfold submit_guess. now rewrite H, F. Qed.

Lemma submit_guess_foreign st sock gameId g gs :
  JsMap.get (activeGames st) gameId = Some g ->
  bothCodesSet g = true ->
  is_participant g sock = false ->
  submit_guess st sock gameId gs = Normal st [].
Proof.
  intros H F P. unfold submit_guess. rewrite H, F.
  unfold is_participant in P. apply orb_false_elim in P as [-> ->].
  reflexivity.
Qed.

Lemma submit_guess_exhausted st sock gameId g gs :
  JsMap.get (activeGames st) gameId = Some g ->
  bothCodesSet g = true ->
  is_participant g sock = true ->
  (10 <= length (guessesArray g sock))%nat ->
  submit_guess st sock gameId gs =
    Normal st [(only sock, guess_error gameId attempts_exhausted_msg)].
Proof.
  intros H F P L. unfold submit_guess. rewrite H, F. cbn [negb].
  unfold is_participant, guessesArray in *.
  apply Nat.leb_le in L.
  destruct (String.eqb (player1 g) sock); cbn [negb andb].
  - now rewrite L.
  - simpl in P. rewrite P. cbn [negb]. now rewrite L.
Qed.

Lemma submit_guess_accepted st sock gameId g gs secret :
  JsMap.get (activeGames st) gameId = Some g ->
  bothCodesSet g = true ->
  is_participant g sock = true ->
  (length (guessesArray g sock) < 10)%nat ->
  targetSecret g sock = Some secret ->
  let guessData :=
    {| guess := gs; feedback := calculateFeedback secret gs |} in
  let isWin := every_eq gs secret in
  let full := (10 <=? length (guessesArray g sock ++ [guessData]))%nat in
  submit_guess st sock gameId gs =
    Normal
      (with_games st
         (JsMap.set (activeGames st) gameId (push_guess g sock guessData)))
      ([(only sock, guess_feedback gameId guessData isWin (full || isWin));
        (only (opponentSocketId g sock), opponent_guess gameId guessData)]
       ++ (if full || isWin
           then [(only (opponentSocketId g sock),
                  opponent_game_status gameId isWin (negb isWin && full))]
           else [])).
Proof.
  intros H F P L T. unfold submit_guess. rewrite H, F. cbn [negb].
  unfold is_participant, guessesArray, targetSecret, opponentSocketId,
    push_guess in *.
  apply Nat.leb_gt in L.
  destruct (String.eqb (player1 g) sock); cbn [negb andb].
  - now rewrite L, T.
  - simpl in P. rewrite P. cbn [negb]. now rewrite L, T.
Qed.

Lemma submit_guess_null_secret st sock gameId g gs :
  JsMap.get (activeGames st) gameId = Some g ->
  bothCodesSet g = true ->
  is_participant g sock = true ->
  (length (guessesArray g sock) < 10)%nat ->
  targetSecret g sock = None ->
  submit_guess st sock gameId gs = TypeError.
Proof.
  intros H F P L T. unfold submit_guess. rewrite H, F. cbn [negb].
  unfold is_participant, guessesArray, targetSecret in *.
  apply Nat.leb_gt in L.
  destruct (String.eqb (player1 g) sock); cbn [negb andb].
  - now rewrite L, T.
  - simpl in P. rewrite P. cbn [negb]. now rewrite L, T.
Qed.

(** In a session that passed the flag test of a reachable state the
    opponent's secret is an array. *)
Lemma targetSecret_ready g sock :
  game_ok g -> bothCodesSet g = true ->
  exists secret, targetSecret g sock = Some secret.
Proof.
  intros (_ & _ & H) F. specialize (H F). unfold targetSecret.
  destruct (secret1 g), (secret2 g); try discriminate.
  destruct (String.eqb (player1 g) sock); eauto.
Qed.

Lemma guessesArray_ok g sock :
  game_ok g -> (length (guessesArray g sock) <= 10)%nat.
Proof.
  intros (H1 & H2 & _). unfold guessesArray.
  now destruct (String.eqb (player1 g) sock).
Qed.

(** [every] over a guess that continues [pre] inside the secret. *)
Lemma every_eq_from_prefix gs : forall pre rest,
  every_eq_from gs (pre ++ gs ++ rest) (length pre) = true.
Proof.
  induction gs as [| val gs IH]; intros pre rest; simpl; [reflexivity |].
  rewrite lookup_app_r by lia. rewrite Nat.sub_diag. simpl.
  rewrite Z.eqb_refl.
  specialize (IH (pre ++ [val]) rest).
  rewrite length_app, <- app_assoc in IH. simpl in IH.
  now rewrite Nat.add_1_r in IH.
Qed.

Lemma every_eq_prefix gs rest : every_eq gs (gs ++ rest) = true.
Proof. exact (every_eq_from_prefix gs [] rest). Qed.

Lemma run_reachable evs : forall st st' out,
  reachable st -> run st evs = Some (st', out) -> reachable st'.
Proof.
  induction evs as [| ev evs IH]; intros st st' out Hst; simpl.
  - now intros [= <- _].
  - destruct (handle st ev) as [st1 out1 |] eqn:Hstep; [| discriminate].
    destruct (run st1 evs) as [[st2 out2] |] eqn:Hrun; [| discriminate].
    intros [= <- _]. eapply IH; [| exact Hrun].
    eapply reachable_step; eassumption.
Qed.

End SubmitGuess.

Lemma state_after_reachable evs st out :
  run initial evs = Some (st, out) -> reachable (state_after evs).
Proof.
  intros H. unfold state_after. rewrite H.
  exact (run_reachable evs initial st out reachable_initial H).
Qed.

(** * The claims about the session handlers *)

(** C3: in a state the handlers can reach, both rows of a session hold at
    most ten guesses; for a participant of a session with both secrets
    committed, [submit_guess] answers with the attempts-exhausted error and
    leaves the state alone exactly when the caller's row already holds ten
    guesses, and appends the guess to that row exactly when it holds fewer
    than ten (so the tenth is accepted and an eleventh is not). *)
Theorem submit_guess_attempt_budget
    (st : state) (sock gameId : string) (g : game) (gs : list Z) :
  reachable st ->
  JsMap.get (activeGames st) gameId = Some g ->
  bothCodesSet g = true ->
  is_participant g sock = true ->
  ((length (guesses1 g) <= 10)%nat /\ (length (guesses2 g) <= 10)%nat) /\
  (submit_guess st sock gameId gs =
     Normal st [(only sock, guess_error gameId attempts_exhausted_msg)]
   <-> length (guessesArray g sock) = 10%nat) /\
  ((exists st' out g' d,
      submit_guess st sock gameId gs = Normal st' out /\
      JsMap.get (activeGames st') gameId = Some g' /\
      guess d = gs /\
      guessesArray g' sock = guessesArray g sock ++ [d])
   <-> (length (guessesArray g sock) < 10)%nat).
Proof.
  intros Hreach Hg Hflag Hpart.
  pose proof (JsMapFacts.everywhere_get _ _ _ _ (reachable_ok st Hreach) Hg)
    as Hok.
  pose proof (guessesArray_ok g sock Hok) as Hrow.
  destruct (targetSecret_ready g sock Hok Hflag) as [secret Hsecret].
  split; [destruct Hok as (H1 & H2 & _); now split |].
  destruct (Nat.lt_ge_cases (length (guessesArray g sock)) 10) as [Hlt | Hge].
  - pose proof (submit_guess_accepted st sock gameId g gs secret
                  Hg Hflag Hpart Hlt Hsecret) as Hacc.
    cbv zeta in Hacc. split; split.
    + rewrite Hacc. intros H. inversion H.
    + lia.
    + intros _. exact Hlt.
    + intros _. eexists _, _, _, _. split; [exact Hacc |].
      split; [apply JsMapFacts.get_set_eq |].
      split; [| apply guessesArray_push]. reflexivity.
  - pose proof (submit_guess_exhausted st sock gameId g gs
                  Hg Hflag Hpart Hge) as Hrej.
    split; split.
    + intros _. lia.
    + intros _. exact Hrej.
    + intros (st' & out & g' & d & Hsub & Hg' & _ & Hrow').
      rewrite Hrej in Hsub. inversion Hsub; subst.
      rewrite Hg in Hg'. inversion Hg'; subst.
      apply (f_equal length) in Hrow'. rewrite length_app in Hrow'.
      simpl in Hrow'. lia.
    + lia.
Qed.

(** The tenth guess of A in the running match. *)
Lemma submit_guess_attempt_budget_witness :
  ((length (guesses1 (match_game match_nine)) <= 10)%nat /\
   (length (guesses2 (match_game match_nine)) <= 10)%nat) /\
  (submit_guess match_nine "A" match_id [4; 3; 2; 1]%Z =
     Normal match_nine
       [(only "A", guess_error match_id attempts_exhausted_msg)]
   <-> length (guessesArray (match_game match_nine) "A") = 10%nat) /\
  ((exists st' out g' d,
      submit_guess match_nine "A" match_id [4; 3; 2; 1]%Z = Normal st' out /\
      JsMap.get (activeGames st') match_id = Some g' /\
      guess d = [4; 3; 2; 1]%Z /\
      guessesArray g' "A" = guessesArray (match_game match_nine) "A" ++ [d])
   <-> (length (guessesArray (match_game match_nine) "A") < 10)%nat).
Proof.
  apply (submit_guess_attempt_budget match_nine "A" match_id
           (match_game match_nine) [4; 3; 2; 1]%Z).
  - eapply state_after_reachable. vm_compute. reflexivity.
  - vm_compute. reflexivity.
  - vm_compute. reflexivity.
  - vm_compute. reflexivity.
Defined.

(** After ten attempts of A the eleventh is turned away and nothing moves. *)
Example eleventh_guess_rejected :
  let st :=
    state_after
      (match_setup ++ replicate 10 (ev_submit_guess "A" match_id [1; 1; 1; 1]))
  in
  length (guesses1 (match_game st)) = 10%nat /\
  submit_guess st "A" match_id [4; 3; 2; 1] =
    Normal st [(only "A", guess_error match_id attempts_exhausted_msg)].
Proof. vm_compute. split; reflexivity. Qed.

(** C4: [submit_guess] sends [guess_error] to the caller exactly when it
    leaves through the secrets-not-ready or the attempts-exhausted exit;
    through the session-not-found and not-a-participant exits it sends
    nothing, and so does [set_secret_code]; through every failing exit the
    state, hence every guess row, is what it was. *)
Theorem failures_and_notifications
    (st : state) (sock gameId : string) (gs secretCode : list Z) :
  ((exists e,
      In (only sock, guess_error gameId e)
         (emitted (submit_guess st sock gameId gs)))
   <-> guess_failure st sock gameId = Some SecretsNotReady \/
       guess_failure st sock gameId = Some AttemptsExhausted) /\
  (guess_failure st sock gameId = Some SessionNotFound \/
   guess_failure st sock gameId = Some NotAParticipant ->
   submit_guess st sock gameId gs = Normal st []) /\
  (forall f, guess_failure st sock gameId = Some f ->
     exists out, submit_guess st sock gameId gs = Normal st out) /\
  (forall f, secret_failure st sock gameId = Some f ->
     (f = SessionNotFound \/ f = NotAParticipant) /\
     set_secret_code st sock gameId secretCode = (st, [])).
Proof.
  unfold guess_failure, secret_failure.
  destruct (JsMap.get (activeGames st) gameId) as [g |] eqn:Hg.
  2:{ rewrite (submit_guess_not_found st sock gameId gs Hg).
      unfold set_secret_code. rewrite Hg. simpl.
      split; [split | split; [| split]].
      - now intros [e []].
      - intros [H | H]; discriminate H.
      - reflexivity.
      - eauto.
      - intros f [= <-]. split; [now left | reflexivity]. }
  assert (Hsecret : forall f,
    (if negb (is_participant g sock) then Some NotAParticipant else None)
      = Some f ->
    (f = SessionNotFound \/ f = NotAParticipant) /\
    set_secret_code st sock gameId secretCode = (st, [])).
  { intros f. unfold set_secret_code, is_participant. rewrite Hg.
    destruct (String.eqb (player1 g) sock), (String.eqb (player2 g) sock);
      simpl; try discriminate.
    intros [= <-]. split; [now right | reflexivity]. }
  destruct (bothCodesSet g) eqn:Hflag; cbn [negb].
  2:{ rewrite (submit_guess_not_ready st sock gameId g gs Hg Hflag). simpl.
      split; [split | split; [| split]].
      - intros _. now left.
      - intros _. eauto.
      - intros [H | H]; discriminate H.
      - eauto.
      - exact Hsecret. }
  destruct (is_participant g sock) eqn:Hpart; cbn [negb].
  2:{ rewrite (submit_guess_foreign st sock gameId g gs Hg Hflag Hpart). simpl.
      split; [split | split; [| split]].
      - now intros [e []].
      - intros [H | H]; discriminate H.
      - reflexivity.
      - eauto.
      - exact Hsecret. }
  destruct (Nat.leb_spec 10 (length (guessesArray g sock))) as [Hge | Hlt].
  - rewrite (submit_guess_exhausted st sock gameId g gs Hg Hflag Hpart Hge).
    simpl. split; [split | split; [| split]].
    + intros _. now right.
    + intros _. eauto.
    + intros [H | H]; discriminate H.
    + eauto.
    + exact Hsecret.
  - split; [split | split; [| split]].
    + intros [e Hin]. exfalso.
      destruct (targetSecret g sock) as [secret |] eqn:Hsec.
      * rewrite (submit_guess_accepted st sock gameId g gs secret
                   Hg Hflag Hpart Hlt Hsec) in Hin.
        cbv zeta in Hin. simpl in Hin.
        destruct Hin as [Hin | [Hin | Hin]]; try discriminate Hin.
        destruct (_ || _) in Hin; simpl in Hin;
          [destruct Hin as [Hin | []]; discriminate Hin | contradiction].
      * now rewrite (submit_guess_null_secret st sock gameId g gs
                       Hg Hflag Hpart Hlt Hsec) in Hin.
    + intros [H | H]; discriminate H.
    + intros [H | H]; discriminate H.
    + intros f H. discriminate H.
    + exact Hsecret.
Qed.

(** The flag is tested before the caller: a connection outside the session
    that guesses before both secrets are committed is told so. *)
Example foreign_caller_before_ready :
  let st := state_after (take 5 match_setup) in
  guess_failure st "C" match_id = Some SecretsNotReady /\
  submit_guess st "C" match_id [1; 2; 3; 4] =
    Normal st [(only "C", guess_error match_id secrets_not_ready_msg)].
Proof. vm_compute. split; reflexivity. Qed.

(** C5: with both secrets committed and attempts left, a guess equal to
    the opponent's four-element secret brings the caller four exact pegs,
    no color peg, [isWin] and [gameOver]; the opponent receives the guess
    and then [opponent_game_status] with [opponentWon] set (and
    [opponentLost] clear). *)
Theorem submit_guess_win
    (st : state) (sock gameId : string) (g : game) (secret : list Z) :
  JsMap.get (activeGames st) gameId = Some g ->
  bothCodesSet g = true ->
  is_participant g sock = true ->
  (length (guessesArray g sock) < 10)%nat ->
  targetSecret g sock = Some secret ->
  length secret = 4%nat ->
  let guessData :=
    {| guess := secret; feedback := [black; black; black; black] |} in
  exactCount (feedback guessData) = 4%nat /\
  colorCount (feedback guessData) = 0%nat /\
  exists st',
    submit_guess st sock gameId secret =
      Normal st'
        [(only sock, guess_feedback gameId guessData true true);
         (only (opponentSocketId g sock), opponent_guess gameId guessData);
         (only (opponentSocketId g sock),
          opponent_game_status gameId true false)].
Proof.
  intros Hg Hflag Hpart Hlt Hsec Hlen guessData.
  split; [reflexivity |]. split; [reflexivity |].
  eexists.
  rewrite (submit_guess_accepted st sock gameId g secret secret
             Hg Hflag Hpart Hlt Hsec).
  cbv zeta. rewrite calculateFeedback_self, Hlen.
  pose proof (every_eq_prefix secret []) as Hwin.
  rewrite app_nil_r in Hwin. rewrite Hwin, orb_true_r.
  reflexivity.
Qed.

(** A holds [1,2,3,4], B holds [4,3,2,1], and A guesses [4,3,2,1]. *)
Lemma submit_guess_win_witness :
  exactCount [black; black; black; black] = 4%nat /\
  colorCount [black; black; black; black] = 0%nat /\
  exists st',
    submit_guess match_ready "A" match_id [4; 3; 2; 1] =
      Normal st'
        [(only "A",
          guess_feedback match_id
            {| guess := [4; 3; 2; 1];
               feedback := [black; black; black; black] |} true true);
         (only "B",
          opponent_guess match_id
            {| guess := [4; 3; 2; 1];
               feedback := [black; black; black; black] |});
         (only "B", opponent_game_status match_id true false)].
Proof.
  apply (submit_guess_win match_ready "A" match_id (match_game match_ready)
           [4; 3; 2; 1]).
  - vm_compute. reflexivity.
  - vm_compute. reflexivity.
  - vm_compute. reflexivity.
  - vm_compute. lia.
  - vm_compute. reflexivity.
  - reflexivity.
Defined.

(** C9: [every] only visits the indices of the guess.  With both secrets
    committed and attempts left, a guess that is a prefix of the opponent's
    secret (whatever follows it, so a strict prefix too, and the empty
    guess against any secret) is accepted, appended to the caller's row,
    and answered with [isWin] and [gameOver] set. *)
Theorem submit_guess_prefix_wins
    (st : state) (sock gameId : string) (g : game) (gs rest : list Z) :
  JsMap.get (activeGames st) gameId = Some g ->
  bothCodesSet g = true ->
  is_participant g sock = true ->
  (length (guessesArray g sock) < 10)%nat ->
  targetSecret g sock = Some (gs ++ rest) ->
  let guessData :=
    {| guess := gs; feedback := calculateFeedback (gs ++ rest) gs |} in
  every_eq gs (gs ++ rest) = true /\
  exists st' g',
    submit_guess st sock gameId gs =
      Normal st'
        [(only sock, guess_feedback gameId guessData true true);
         (only (opponentSocketId g sock), opponent_guess gameId guessData);
         (only (opponentSocketId g sock),
          opponent_game_status gameId true false)] /\
    JsMap.get (activeGames st') gameId = Some g' /\
    guessesArray g' sock = guessesArray g sock ++ [guessData].
Proof.
  intros Hg Hflag Hpart Hlt Hsec guessData.
  pose proof (every_eq_prefix gs rest) as Hwin.
  split; [exact Hwin |].
  eexists _, _. split; [| split].
  - rewrite (submit_guess_accepted st sock gameId g gs (gs ++ rest)
               Hg Hflag Hpart Hlt Hsec).
    cbv zeta. rewrite Hwin, orb_true_r. reflexivity.
  - apply JsMapFacts.get_set_eq.
  - apply guessesArray_push.
Qed.

(** A submits the empty guess against B's [4,3,2,1]. *)
Lemma submit_guess_prefix_wins_witness :
  every_eq [] ([] ++ [4; 3; 2; 1]) = true /\
  exists st' g',
    submit_guess match_ready "A" match_id [] =
      Normal st'
        [(only "A",
          guess_feedback match_id {| guess := []; feedback := [] |} true true);
         (only "B",
          opponent_guess match_id {| guess := []; feedback := [] |});
         (only "B", opponent_game_status match_id true false)] /\
    JsMap.get (activeGames st') match_id = Some g' /\
    guessesArray g' "A" = [{| guess := []; feedback := [] |}].
Proof.
  apply (submit_guess_prefix_wins match_ready "A" match_id
           (match_game match_ready) [] [4; 3; 2; 1]).
  - vm_compute. reflexivity.
  - vm_compute. reflexivity.
  - vm_compute. reflexivity.
  - vm_compute. lia.
  - vm_compute. reflexivity.
Defined.

(** A strict, non-empty prefix wins as well. *)
Example proper_prefix_wins :
  emitted (submit_guess match_ready "A" match_id [4; 3]) =
    [(only "A",
      guess_feedback match_id
        {| guess := [4; 3]; feedback := [black; black] |} true true);
     (only "B",
      opponent_guess match_id
        {| guess := [4; 3]; feedback := [black; black] |});
     (only "B", opponent_game_status match_id true false)].
Proof. vm_compute. reflexivity. Qed.

(** * The challenge broker *)

(** Only B has registered; A, connected but not registered, challenges B.
    The target is present and yet nothing is sent. *)
Lemma send_challenge_unregistered_sender :
  ~ send_challenge_as_stated
      (state_after [ev_register_user "B" (ud_string "bob")]) "A" "B".
Proof.
  intros [[Hsilent _] _].
  assert (H : JsMap.has
                (onlineUsers
                   (state_after [ev_register_user "B" (ud_string "bob")]))
                "B" = false)
    by (apply Hsilent; reflexivity).
  vm_compute in H. discriminate H.
Qed.

(** C7, amended: [send_challenge] stays silent exactly when the target is
    absent or the sender itself has not registered; otherwise it sends the
    target one [challenge_received] carrying the sender's registered
    username and connection id.  It never touches the state, so no session
    is created either way. *)
Theorem send_challenge_contract (st : state) (sock targetSocketId : string) :
  (send_challenge st sock targetSocketId = (st, [])
   <-> JsMap.has (onlineUsers st) targetSocketId = false \/
       JsMap.has (onlineUsers st) sock = false) /\
  (forall challenger,
     JsMap.get (onlineUsers st) sock = Some challenger ->
     JsMap.has (onlineUsers st) targetSocketId = true ->
     send_challenge st sock targetSocketId =
       (st, [(only targetSocketId,
              challenge_received (username challenger) sock)])) /\
  fst (send_challenge st sock targetSocketId) = st.
Proof.
  unfold send_challenge, JsMap.has.
  destruct (JsMap.get (onlineUsers st) sock) as [challenger |];
    destruct (JsMap.get (onlineUsers st) targetSocketId) as [t |];
    (split; [split | split]); simpl; auto;
    try discriminate; try (intros [H | H]; discriminate H).
  intros c [= <-] _. reflexivity.
Qed.

(** * Committing secrets *)

Section SetSecret.
Import JsMapFacts.

Lemma set_secret_code_participant st sock gameId g c :
  JsMap.get (activeGames st) gameId = Some g ->
  is_participant g sock = true ->
  set_secret_code st sock gameId c =
    (with_games st
       (JsMap.set (activeGames st) gameId (write_secret g sock c)),
     if both_truthy (secret1 (write_secret g sock c))
                    (secret2 (write_secret g sock c))
     then [(only (player1 g), both_codes_set gameId);
           (only (player2 g), both_codes_set gameId)]
     else [(only (opponentSocketId g sock), opponent_code_set gameId)]).
Proof.
  intros Hg Hpart. unfold set_secret_code, write_secret, opponentSocketId.
  rewrite Hg. unfold is_participant in Hpart.
  destruct (String.eqb (player1 g) sock); simpl in *.
  - destruct (secret2 g) eqn:E; simpl; rewrite ?E; reflexivity.
  - rewrite Hpart. simpl.
    destruct (secret1 g) eqn:E; simpl; rewrite ?E; reflexivity.
Qed.

(** Across one event, the session found under an identifier is gone, or
    still has its flag up, or is the session this very event created. *)
Lemma handle_keeps_flag st ev st' out gameId g :
  handle st ev = Normal st' out ->
  JsMap.get (activeGames st) gameId = Some g ->
  bothCodesSet g = true ->
  match JsMap.get (activeGames st') gameId with
  | None => True
  | Some g' => bothCodesSet g' = true \/ creates ev gameId g'
  end.
Proof.
  intros Hstep Hg Hflag.
  assert (Hsame :
    match JsMap.get (activeGames st) gameId with
    | None => True
    | Some g' => bothCodesSet g' = true \/ creates ev gameId g'
    end) by (rewrite Hg; now left).
  destruct ev as [sock ud | sock | sock t | sock c now | sock id c
                 | sock id gs | sock]; simpl in Hstep; unfold of_pair in Hstep.
  - injection Hstep as <- _. exact Hsame.
  - injection Hstep as <- _. exact Hsame.
  - injection Hstep as <- _. unfold send_challenge.
    destruct (JsMap.get (onlineUsers st) sock); [| exact Hsame].
    destruct (JsMap.has (onlineUsers st) t); exact Hsame.
  - injection Hstep as <- _. unfold accept_challenge.
    destruct (JsMap.get (onlineUsers st) sock); [| exact Hsame].
    destruct (JsMap.get (onlineUsers st) c); [| exact Hsame].
    simpl.
    destruct (String.eqb_spec (make_gameId c sock now) gameId) as [<- | Hne].
    + rewrite get_set_eq. right. now exists sock, c, now.
    + rewrite get_set_ne by exact Hne. exact Hsame.
  - injection Hstep as <- _.
    destruct (JsMap.get (activeGames st) id) as [g0 |] eqn:Hg0.
    2:{ unfold set_secret_code. rewrite Hg0. exact Hsame. }
    destruct (is_participant g0 sock) eqn:Hpart.
    2:{ unfold set_secret_code. rewrite Hg0.
        unfold is_participant in Hpart.
        apply orb_false_elim in Hpart as [-> ->]. exact Hsame. }
    rewrite (set_secret_code_participant st sock id g0 c Hg0 Hpart). simpl.
    destruct (String.eqb_spec id gameId) as [-> | Hne].
    + rewrite get_set_eq. left.
      rewrite Hg in Hg0. injection Hg0 as <-.
      unfold write_secret.
      destruct (String.eqb (player1 g) sock); cbv zeta;
        match goal with |- context [if ?b then _ else _] =>
          destruct b end; simpl; auto.
    + rewrite get_set_ne by exact Hne. exact Hsame.
  - destruct (JsMap.get (activeGames st) id) as [g0 |] eqn:Hg0.
    2:{ rewrite (submit_guess_not_found st sock id gs Hg0) in Hstep.
        injection Hstep as <- _. exact Hsame. }
    destruct (bothCodesSet g0) eqn:Hflag0.
    2:{ rewrite (submit_guess_not_ready st sock id g0 gs Hg0 Hflag0)
          in Hstep.
        injection Hstep as <- _. exact Hsame. }
    destruct (is_participant g0 sock) eqn:Hpart.
    2:{ rewrite (submit_guess_foreign st sock id g0 gs Hg0 Hflag0 Hpart)
          in Hstep.
        injection Hstep as <- _. exact Hsame. }
    destruct (Nat.le_gt_cases 10 (length (guessesArray g0 sock)))
      as [Hge | Hlt].
    { rewrite (submit_guess_exhausted st sock id g0 gs
                 Hg0 Hflag0 Hpart Hge) in Hstep.
      injection Hstep as <- _. exact Hsame. }
    destruct (targetSecret g0 sock) as [secret |] eqn:Hsec.
    2:{ rewrite (submit_guess_null_secret st sock id g0 gs
                   Hg0 Hflag0 Hpart Hlt Hsec) in Hstep.
        discriminate Hstep. }
    rewrite (submit_guess_accepted st sock id g0 gs secret
               Hg0 Hflag0 Hpart Hlt Hsec) in Hstep.
    cbv zeta in Hstep. injection Hstep as <- _. simpl.
    destruct (String.eqb_spec id gameId) as [-> | Hne].
    + rewrite get_set_eq. left. unfold push_guess.
      rewrite Hg in Hg0. injection Hg0 as <-.
      now destruct (String.eqb (player1 g) sock).
    + rewrite get_set_ne by exact Hne. exact Hsame.
  - injection Hstep as <- _. rewrite disconnect_games.
    match goal with |- match ?x with _ => _ end =>
      destruct x as [g' |] eqn:Hg' end; [| exact I].
    apply disconnect_fold_get in Hg'. rewrite Hg in Hg'.
    injection Hg' as <-. now left.
Qed.

End SetSecret.

(** C10: [set_secret_code] from a participant overwrites the caller's
    slot in whatever phase the session is, leaving players, rows and the
    other slot as they were; when both slots are then non-null the stored
    session has [bothCodesSet] up and [both_codes_set] goes to player 1 and
    player 2, also when the flag was up already.  And no event clears the
    flag of a session: after any event the session found under an
    identifier is gone, or has its flag up, or is the session that very
    [accept_challenge] created. *)
Theorem set_secret_code_recommit :
  (forall st sock gameId g c,
     JsMap.get (activeGames st) gameId = Some g ->
     is_participant g sock = true ->
     exists g',
       JsMap.get (activeGames (fst (set_secret_code st sock gameId c))) gameId
         = Some g' /\
       own_secret g' sock = Some c /\
       other_secret g' sock = other_secret g sock /\
       (player1 g' = player1 g /\ player2 g' = player2 g /\
        guesses1 g' = guesses1 g /\ guesses2 g' = guesses2 g) /\
       (both_truthy (secret1 g') (secret2 g') = true ->
        bothCodesSet g' = true /\
        snd (set_secret_code st sock gameId c) =
          [(only (player1 g), both_codes_set gameId);
           (only (player2 g), both_codes_set gameId)])) /\
  (forall st ev st' out gameId g,
     handle st ev = Normal st' out ->
     JsMap.get (activeGames st) gameId = Some g ->
     bothCodesSet g = true ->
     match JsMap.get (activeGames st') gameId with
     | None => True
     | Some g' => bothCodesSet g' = true \/ creates ev gameId g'
     end).
Proof.
  split; [| exact handle_keeps_flag].
  intros st sock gameId g c Hg Hpart.
  rewrite (set_secret_code_participant st sock gameId g c Hg Hpart).
  exists (write_secret g sock c). cbn [fst snd with_games activeGames].
  split; [apply JsMapFacts.get_set_eq |].
  unfold write_secret, own_secret, other_secret.
  destruct (String.eqb (player1 g) sock) eqn:P1; cbv zeta.
  - destruct (secret2 g) as [s2 |] eqn:E2; simpl; rewrite ?P1, ?E2; simpl;
      rewrite ?E2; repeat split;
      first [reflexivity | discriminate | now rewrite P1].
  - destruct (secret1 g) as [s1 |] eqn:E1; simpl; rewrite ?P1, ?E1; simpl;
      rewrite ?E1; repeat split;
      first [reflexivity | discriminate | now rewrite P1].
Qed.

(** The match is under way, A has guessed once, and B commits a new
    secret: it replaces [4,3,2,1] and both players are told again. *)
Lemma set_secret_code_recommit_witness :
  let st := state_after (match_setup ++ [ev_submit_guess "A" match_id [1; 1; 1; 1]]) in
  exists g',
    JsMap.get
      (activeGames (fst (set_secret_code st "B" match_id [5; 5; 5; 5])))
      match_id = Some g' /\
    own_secret g' "B" = Some [5; 5; 5; 5] /\
    other_secret g' "B" = Some [1; 2; 3; 4] /\
    length (guesses1 g') = 1%nat /\
    bothCodesSet g' = true /\
    snd (set_secret_code st "B" match_id [5; 5; 5; 5]) =
      [(only "A", both_codes_set match_id);
       (only "B", both_codes_set match_id)].
Proof.
  intros st.
  destruct (proj1 set_secret_code_recommit st "B" match_id (match_game st)
              [5; 5; 5; 5])
    as (g' & Hg' & Hown & Hother & (_ & _ & Hrow & _) & Hboth).
  - vm_compute. reflexivity.
  - vm_compute. reflexivity.
  - exists g'. split; [exact Hg' |]. split; [exact Hown |].
    split; [rewrite Hother; vm_compute; reflexivity |].
    split; [rewrite Hrow; vm_compute; reflexivity |].
    apply Hboth.
    vm_compute in Hg'. injection Hg' as <-. reflexivity.
Defined.

(** C6: two [accept_challenge] events of the same accepter for the same
    challenger handled within one millisecond get the same identifier; the
    second session takes the place of the first in [activeGames], and both
    pairs of notifications name the one identifier. *)
Theorem accept_challenge_same_millisecond :
  let st0 :=
    state_after [ev_register_user "A" (ud_string "alice");
                 ev_register_user "B" (ud_string "bob")] in
  let first := accept_challenge st0 "B" "A" 1700000000000 in
  let second := accept_challenge (fst first) "B" "A" 1700000000000 in
  snd first =
    [(only "A", challenge_accepted (Some "bob") "B" match_id "player1");
     (only "B", challenge_accepted (Some "alice") "A" match_id "player2")] /\
  snd second = snd first /\
  length (activeGames (fst first)) = 1%nat /\
  length (activeGames (fst second)) = 1%nat.
Proof. vm_compute. repeat split; reflexivity. Qed.

(** The collision wipes a session in progress: after the secrets are
    committed, a second acceptance stamped with the same millisecond leaves
    a blank session under the identifier, and the next guess is refused. *)
Example accept_challenge_collision_wipes :
  let st := state_after (match_setup ++ [ev_accept_challenge "B" "A" 1700000000000]) in
  JsMap.get (activeGames match_ready) match_id =
    Some {| player1 := "A"; player2 := "B";
            secret1 := Some [1; 2; 3; 4]; secret2 := Some [4; 3; 2; 1];
            guesses1 := []; guesses2 := []; bothCodesSet := true |} /\
  JsMap.get (activeGames st) match_id = Some (new_game "A" "B") /\
  submit_guess st "A" match_id [4; 3; 2; 1] =
    Normal st [(only "A", guess_error match_id secrets_not_ready_msg)].
Proof. vm_compute. repeat split; reflexivity. Qed.

(** * Further properties of the feedback helper *)

Section FeedbackMore.

Lemma unconsumed_app l1 l2 :
  unconsumed (l1 ++ l2) = (unconsumed l1 + unconsumed l2)%nat.
Proof. unfold unconsumed. now rewrite filter_app, length_app. Qed.

(** Marking a live cell uses it up. *)
Lemma unconsumed_insert_live (l : list Z) : forall (i : nat) (v : Z),
  l !! i = Some v -> v <> -1 ->
  S (unconsumed (<[i := (-1)%Z]> l)) = unconsumed l.
Proof.
  induction l as [| x l IH]; intros [| i] v Hi Hv; simpl in Hi;
    try discriminate.
  - injection Hi as ->. simpl.
    now rewrite unconsumed_cons_marker, unconsumed_cons_live.
  - simpl. destruct (decide (x <> -1)) as [Hx | Hx].
    + rewrite !unconsumed_cons_live by exact Hx. f_equal. eapply IH; eauto.
    + assert (x = -1) as -> by lia. rewrite !unconsumed_cons_marker.
      eapply IH; eauto.
Qed.

(** Where [indexOf] points when it finds the value. *)
Lemma indexOf_from_found (l : list Z) (v : Z) : forall i,
  0 <= i -> indexOf_from l v i <> -1 ->
  exists k : nat, indexOf_from l v i = i + Z.of_nat k /\ l !! k = Some v.
Proof.
  induction l as [| x l IH]; intros i Hi; simpl.
  - intros H. now contradiction H.
  - destruct (Z.eqb_spec x v) as [-> | Hx].
    + intros _. exists 0%nat. split; [lia | reflexivity].
    + intros H. destruct (IH (i + 1) ltac:(lia) H) as (k & Hk & Hl).
      exists (S k). split; [lia | exact Hl].
Qed.

(** The second loop awards at most one color peg per live guess cell. *)
Lemma whites_fold_le_guess secretCopy : forall guessCopy nwhite,
  (snd (foldl whites_step (guessCopy, nwhite) secretCopy)
   + unconsumed (fst (foldl whites_step (guessCopy, nwhite) secretCopy))
   <= nwhite + unconsumed guessCopy)%nat.
Proof.
  induction secretCopy as [| val sc IH]; intros gc w; simpl; [lia |].
  destruct (Z.eqb_spec val (-1)) as [-> | Hval]; simpl; [apply IH |].
  destruct (Z.eqb_spec (indexOf gc val) (-1)) as [Hidx | Hidx]; simpl;
    [apply IH |].
  destruct (indexOf_from_found gc val 0 ltac:(lia) Hidx) as (k & Hk & Hl).
  unfold indexOf. rewrite Hk. replace (Z.to_nat (0 + Z.of_nat k)) with k by lia.
  pose proof (unconsumed_insert_live gc k val Hl Hval).
  etransitivity; [apply IH | lia].
Qed.

(** After the first [n] indices, seen from the guess: exact pegs so far plus
    live cells among the first [n] of [guessCopy] fit in those cells, and
    the cells from [n] on are the guess's own. *)
Lemma blacks_prefix_inv_guess secret gs n :
  let '(secretCopy, guessCopy, nblack) :=
    foldl blacks_step (secret, gs, 0%nat) (seq 0 n) in
  (nblack + unconsumed (take n guessCopy) <= length (take n guessCopy))%nat /\
  drop n guessCopy = drop n gs /\
  length guessCopy = length gs.
Proof.
  induction n as [| n IH].
  - simpl. rewrite take_0, !drop_0. change (unconsumed []) with 0%nat.
    simpl. repeat split; lia.
  - rewrite blacks_prefix_S.
    destruct (foldl blacks_step (secret, gs, 0%nat) (seq 0 n)) as [[sc gc] b].
    destruct IH as (Hcount & Hdrop & Hlen).
    assert (Hkeep :
      (b + unconsumed (take (S n) gc) <= length (take (S n) gc))%nat /\
      drop (S n) gc = drop (S n) gs /\ length gc = length gs).
    { split; [| split; [| exact Hlen]].
      - destruct (gc !! n) as [x |] eqn:Hx.
        + rewrite (take_S_r _ _ x Hx), length_app. simpl.
          pose proof (unconsumed_snoc (take n gc) x). lia.
        + apply lookup_ge_None in Hx. rewrite !take_ge in * by lia. exact Hcount.
      - replace (S n) with (n + 1)%nat by lia.
        rewrite <- !drop_drop. now rewrite Hdrop. }
    unfold blacks_step. destruct (sc !! n) as [val |]; [| exact Hkeep].
    destruct (gc !! n) as [g |] eqn:Hg; simpl; [| exact Hkeep].
    destruct (val =? g); [| exact Hkeep].
    pose proof (lookup_lt_Some _ _ _ Hg) as Hn.
    rewrite length_insert. split; [| split; [| exact Hlen]].
    + rewrite (take_S_r _ _ (-1)) by (apply list_lookup_insert_eq; lia).
      rewrite take_insert_ge by lia.
      rewrite unconsumed_snoc_marker, length_app. simpl. lia.
    + rewrite drop_insert_lt by lia.
      replace (S n) with (n + 1)%nat by lia.
      rewrite <- !drop_drop. now rewrite Hdrop.
Qed.

Lemma blacks_pass_inv_guess secret gs :
  let '(secretCopy, guessCopy, nblack) := blacks_pass secret gs in
  (nblack + unconsumed guessCopy <= length gs)%nat.
Proof.
  unfold blacks_pass.
  pose proof (blacks_prefix_inv_guess secret gs (length secret)) as H.
  destruct (foldl blacks_step (secret, gs, 0%nat) (seq 0 (length secret)))
    as [[sc gc] b].
  destruct H as (Hcount & _ & Hlen).
  rewrite <- (take_drop (length secret) gc) at 1.
  rewrite unconsumed_app.
  pose proof (unconsumed_le_length (drop (length secret) gc)).
  rewrite <- Hlen. rewrite <- (take_drop (length secret) gc) at 3.
  rewrite length_app. lia.
Qed.

(** Indices past the end of the guess change nothing. *)
Lemma blacks_fold_beyond n : forall i secretCopy guessCopy nblack,
  (length guessCopy <= i)%nat ->
  foldl blacks_step (secretCopy, guessCopy, nblack) (seq i n) =
    (secretCopy, guessCopy, nblack).
Proof.
  induction n as [| n IH]; intros i sc gc b Hi; [reflexivity |].
  cbn [seq foldl]. unfold blacks_step at 2.
  rewrite (lookup_ge_None_2 gc i Hi).
  destruct (sc !! i); cbn [strict_eq_at]; apply IH; lia.
Qed.

Lemma blacks_fold_count (secret : list Z) : forall gs pre_s pre_g nblack,
  length pre_s = length pre_g ->
  snd (foldl blacks_step (pre_s ++ secret, pre_g ++ gs, nblack)
         (seq (length pre_s) (length secret))) =
    (nblack + agreeing secret gs)%nat.
Proof.
  induction secret as [| s secret IH]; intros gs pre_s pre_g b Hpre.
  - simpl. lia.
  - destruct gs as [| g gs].
    + rewrite blacks_fold_beyond by (rewrite app_nil_r; lia). simpl. lia.
    + cbn [length seq foldl]. unfold blacks_step at 2.
      rewrite (list_lookup_middle pre_s secret s (length pre_s) eq_refl).
      rewrite (list_lookup_middle pre_g gs g (length pre_s) Hpre).
      cbn [strict_eq_at agreeing].
      destruct (s =? g).
      * rewrite (insert_app_r_alt pre_s) by lia.
        rewrite (insert_app_r_alt pre_g) by lia.
        replace (length pre_s - length pre_g)%nat with 0%nat by lia.
        rewrite Nat.sub_diag. cbn [insert list_insert].
        rewrite (cons_middle (-1) pre_s), (cons_middle (-1) pre_g), !app_assoc.
        specialize (IH gs (pre_s ++ [-1]) (pre_g ++ [-1]) (S b)).
        rewrite !length_app in IH. cbn [length] in IH.
        rewrite !Nat.add_1_r in IH. rewrite IH by lia. lia.
      * rewrite (cons_middle s pre_s), (cons_middle g pre_g), !app_assoc.
        specialize (IH gs (pre_s ++ [s]) (pre_g ++ [g]) b).
        rewrite !length_app in IH. cbn [length] in IH.
        rewrite !Nat.add_1_r in IH. rewrite IH by lia. lia.
Qed.

Lemma agreeing_le secret : forall gs,
  (agreeing secret gs <= length secret)%nat /\
  (agreeing secret gs <= length gs)%nat.
Proof.
  induction secret as [| s secret IH]; intros [| g gs]; simpl; try lia.
  destruct (IH gs). destruct (s =? g); lia.
Qed.

Lemma agreeing_all secret : forall gs,
  length secret = length gs ->
  agreeing secret gs = length secret <-> secret = gs.
Proof.
  induction secret as [| s secret IH]; intros [| g gs] Hlen;
    try discriminate Hlen.
  - split; reflexivity.
  - simpl in *. injection Hlen as Hlen. specialize (IH gs Hlen).
    pose proof (agreeing_le secret gs) as [Hle _].
    destruct (Z.eqb_spec s g) as [-> | Hne]; split.
    + intros H. f_equal. apply IH. lia.
    + intros [= <-]. f_equal. apply IH. reflexivity.
    + intros H. lia.
    + intros [= E _]. contradiction.
Qed.

(** Exact pegs and agreement, as one fact shared below. *)
Lemma exact_pegs_count secret gs :
  exactCount (calculateFeedback secret gs) = agreeing secret gs.
Proof.
  destruct (calculateFeedback_counts secret gs)
    as (sc & gc & b & gc' & w & Hb & _ & _ & -> & _ & _).
  pose proof (blacks_fold_count secret gs [] [] 0%nat eq_refl) as Hcount.
  unfold blacks_pass in Hb. simpl in Hcount. rewrite Hb in Hcount.
  exact Hcount.
Qed.

Lemma exact_pegs_count_eq secret gs :
  length secret = length gs ->
  exactCount (calculateFeedback secret gs) = length secret <-> secret = gs.
Proof. intros Hlen. rewrite exact_pegs_count. now apply agreeing_all. Qed.

End FeedbackMore.

(** X1: scoring a code against itself gives one exact peg per element and
    no color peg, whatever the elements (the marker [-1] included) and
    whatever the length. *)
Theorem feedback_against_itself (c : list Z) :
  calculateFeedback c c = replicate (length c) black /\
  exactCount (calculateFeedback c c) = length c /\
  colorCount (calculateFeedback c c) = 0%nat.
Proof.
  rewrite calculateFeedback_self.
  pose proof (exactCount_pegs (length c) 0) as He.
  pose proof (colorCount_pegs (length c) 0) as Hc.
  simpl in He, Hc. rewrite app_nil_r in He, Hc. auto.
Qed.

(** X2: for codes of any two lengths the returned array has at most as
    many pegs as the shorter code has elements; an empty secret or an
    empty guess gets an empty feedback. *)
Theorem feedback_fits_shorter_code (secret gs : list Z) :
  (length (calculateFeedback secret gs) <= length secret)%nat /\
  (length (calculateFeedback secret gs) <= length gs)%nat /\
  calculateFeedback [] gs = [] /\
  calculateFeedback secret [] = [].
Proof.
  assert (Hbound : forall s g,
    (length (calculateFeedback s g) <= length s)%nat /\
    (length (calculateFeedback s g) <= length g)%nat).
  { intros s g. split.
    - destruct (calculateFeedback_bounds s g) as (H1 & _ & H2). lia.
    - destruct (calculateFeedback_counts s g)
        as (sc & gc & b & gc' & w & Hb & Hw & _ & _ & _ & ->).
      pose proof (blacks_pass_inv_guess s g) as Hinv. rewrite Hb in Hinv.
      pose proof (whites_fold_le_guess sc gc 0%nat) as Hle.
      unfold whites_pass in Hw. rewrite Hw in Hle. simpl in Hle. lia. }
  split; [apply Hbound |]. split; [apply Hbound |].
  split; [reflexivity |].
  destruct (Hbound secret []) as [_ H].
  destruct (calculateFeedback secret []); [reflexivity | simpl in H; lia].
Qed.

(** X3: the exact pegs are the positions at which secret and guess hold
    the same element, for codes of any lengths; with equal lengths every
    peg is exact if and only if the guess is the secret. *)
Theorem exact_pegs_are_agreeing_positions (secret gs : list Z) :
  exactCount (calculateFeedback secret gs) = agreeing secret gs /\
  (length secret = length gs ->
   (exactCount (calculateFeedback secret gs) = length secret <-> secret = gs)).
Proof.
  split; [apply exact_pegs_count | apply exact_pegs_count_eq].
Qed.

(** Secret [3,1,4,1] against guess [1,3,4,4]. *)
Lemma calculateFeedback_implements_policy_witness :
  (exactCount (calculateFeedback [3; 1; 4; 1]%Z [1; 3; 4; 4]%Z),
   colorCount (calculateFeedback [3; 1; 4; 1]%Z [1; 3; 4; 4]%Z))
  = spec_score [3; 1; 4; 1]%Z [1; 3; 4; 4]%Z.
Proof.
  apply (calculateFeedback_implements_policy [3; 1; 4; 1]%Z [1; 3; 4; 4]%Z).
  - reflexivity.
  - simpl. intros [H | [H | [H | [H | []]]]]; discriminate H.
Defined.

(** * The win test *)

Lemma every_eq_from_true gs : forall secret i,
  every_eq_from gs secret i = true ->
  take (length gs) (drop i secret) = gs.
Proof.
  induction gs as [| val gs IH]; intros secret i; simpl; [reflexivity |].
  destruct (secret !! i) as [t |] eqn:Ht; simpl; [| discriminate].
  destruct (Z.eqb_spec val t) as [-> | _]; [| discriminate].
  intros H. rewrite (drop_S secret t i Ht). simpl. f_equal. now apply IH.
Qed.

(** X5: [isWin] holds exactly when the guess is a prefix of the target
    secret.  For a guess as long as the secret that is equality of the two
    codes, and it is also the case in which every peg of the feedback is
    exact. *)
Theorem win_test_is_prefix_test (gs secret : list Z) :
  (every_eq gs secret = true <-> exists rest, secret = gs ++ rest) /\
  (length gs = length secret ->
   (every_eq gs secret = true <-> gs = secret) /\
   (every_eq gs secret = true <->
    exactCount (calculateFeedback secret gs) = length secret)).
Proof.
  assert (Hprefix :
    every_eq gs secret = true <-> exists rest, secret = gs ++ rest).
  { split.
    - intros H. apply every_eq_from_true in H. rewrite drop_0 in H.
      exists (drop (length gs) secret).
      rewrite <- H at 1. symmetry. apply take_drop.
    - intros [rest ->]. apply every_eq_prefix. }
  split; [exact Hprefix |].
  intros Hlen.
  assert (Heq : every_eq gs secret = true <-> gs = secret).
  { rewrite Hprefix. split.
    - intros [rest ->]. rewrite length_app in Hlen.
      destruct rest; [now rewrite app_nil_r | simpl in Hlen; lia].
    - intros ->. exists []. now rewrite app_nil_r. }
  split; [exact Heq |].
  rewrite Heq.
  destruct (exact_pegs_count_eq secret gs (eq_sym Hlen)) as [H1 H2].
  split; [intros ->; apply H2; reflexivity | intros H; symmetry; now apply H1].
Qed.

(** * Further properties of the [Map] operations *)

Module JsMapMore.
Import JsMap JsMapFacts.

Section WithValues.
Context {V : Type}.
Implicit Types (m : t V) (k : string) (v : V).

Lemma in_keys_has m k : In k (keys m) <-> has m k = true.
Proof.
  unfold has, keys. induction m as [| [k0 v0] m IH]; simpl.
  - split; [contradiction | discriminate].
  - destruct (String.eqb_spec k0 k) as [-> | Hne].
    + split; auto.
    + rewrite <- IH. split; [intros [H | H]; [contradiction | exact H] | auto].
Qed.

Lemma keys_set m k v :
  keys (set m k v) = if has m k then keys m else keys m ++ [k].
Proof.
  unfold has, keys. induction m as [| [k0 v0] m IH]; simpl; [reflexivity |].
  destruct (String.eqb_spec k0 k) as [-> | Hne]; simpl; [reflexivity |].
  rewrite IH. now destruct (get m k).
Qed.

Lemma NoDup_keys_set m k v : NoDup (keys m) -> NoDup (keys (set m k v)).
Proof.
  intros Hnd. rewrite keys_set. destruct (has m k) eqn:Hhas; [exact Hnd |].
  apply NoDup_app. split; [exact Hnd |]. split.
  - intros x Hx Hk. apply list_elem_of_In in Hx.
    apply list_elem_of_In in Hk. destruct Hk as [<- | []].
    apply in_keys_has in Hx. congruence.
  - apply NoDup_singleton.
Qed.

Lemma in_delete m k (e : string * V) :
  In e (delete m k) <-> In e m /\ fst e <> k.
Proof.
  induction m as [| [k0 v0] m IH]; simpl; [tauto |].
  destruct (String.eqb_spec k0 k) as [-> | Hne]; simpl; rewrite IH.
  - split; [tauto |]. intros [[<- | H] Hk]; [now contradiction Hk | tauto].
  - split; [| tauto]. intros [<- | [H Hk]]; [simpl; tauto | tauto].
Qed.

Lemma keys_delete_subset m k x : In x (keys (delete m k)) -> In x (keys m).
Proof.
  unfold keys. rewrite !in_map_iff.
  intros (e & He & Hin). apply in_delete in Hin. exists e. tauto.
Qed.

Lemma NoDup_keys_delete m k : NoDup (keys m) -> NoDup (keys (delete m k)).
Proof.
  induction m as [| [k0 v0] m IH]; simpl; intros Hnd; [constructor |].
  apply NoDup_cons in Hnd as [Hk0 Hnd]. fold (keys m) in *.
  destruct (String.eqb k0 k); [auto |].
  simpl. apply NoDup_cons. split; [| auto].
  intros H. apply Hk0. apply list_elem_of_In. apply list_elem_of_In in H.
  exact (keys_delete_subset m k k0 H).
Qed.

Lemma delete_absent m k : has m k = false -> delete m k = m.
Proof.
  unfold has. induction m as [| [k0 v0] m IH]; simpl; [reflexivity |].
  destruct (String.eqb k0 k); [discriminate |].
  intros H. now rewrite IH.
Qed.

Lemma has_set m k k' v :
  has (set m k v) k' = has m k' || String.eqb k k'.
Proof.
  unfold has. destruct (String.eqb_spec k k') as [<- | Hne].
  - rewrite get_set_eq. now rewrite orb_true_r.
  - rewrite get_set_ne by exact Hne. now rewrite orb_false_r.
Qed.

Lemma has_delete m k k' :
  has (delete m k) k' = has m k' && negb (String.eqb k k').
Proof.
  unfold has. destruct (String.eqb_spec k k') as [<- | Hne].
  - rewrite get_delete_eq. now rewrite andb_false_r.
  - rewrite get_delete_ne by exact Hne. now rewrite andb_true_r.
Qed.

Lemma length_set m k v :
  length (set m k v) = if has m k then length m else S (length m).
Proof.
  unfold has. induction m as [| [k0 v0] m IH]; simpl; [reflexivity |].
  destruct (String.eqb k0 k); simpl; [reflexivity |].
  rewrite IH. now destruct (get m k).
Qed.

Lemma Forall_set (P : string * V -> Prop) m k v :
  Forall P m -> P (k, v) -> Forall P (set m k v).
Proof.
  intros Hall Hv. induction m as [| [k0 v0] m IH]; simpl.
  - now constructor.
  - apply Forall_cons_1 in Hall as [H0 Hall].
    destruct (String.eqb k0 k); constructor; auto.
Qed.

Lemma Forall_delete (P : string * V -> Prop) m k :
  Forall P m -> Forall P (delete m k).
Proof.
  induction m as [| [k0 v0] m IH]; simpl; intros Hall; [constructor |].
  apply Forall_cons_1 in Hall as [H0 Hall].
  destruct (String.eqb k0 k); [auto | constructor; auto].
Qed.

(** With distinct keys, an entry of the list is what [get] finds. *)
Lemma get_of_in m k v : NoDup (keys m) -> In (k, v) m -> get m k = Some v.
Proof.
  induction m as [| [k0 v0] m IH]; simpl; intros Hnd; [contradiction |].
  apply NoDup_cons in Hnd as [Hk0 Hnd]. fold (keys m) in *.
  intros [[= -> ->] | Hin].
  - now rewrite String.eqb_refl.
  - destruct (String.eqb_spec k0 k) as [-> | Hne]; [| auto].
    exfalso. apply Hk0. apply list_elem_of_In. unfold keys.
    apply in_map_iff. now exists (k, v).
Qed.

Lemma in_of_get m k v : get m k = Some v -> In (k, v) m.
Proof.
  induction m as [| [k0 v0] m IH]; simpl; [discriminate |].
  destruct (String.eqb_spec k0 k) as [-> | Hne].
  - intros [= ->]. now left.
  - auto.
Qed.

Lemma get_foldl_delete_in ks : forall m k,
  In k ks -> get (foldl delete m ks) k = None.
Proof.
  induction ks as [| k0 ks IH]; intros m k; simpl; [contradiction |].
  destruct (in_dec String.string_dec k ks) as [Hin | Hnin].
  - intros _. now apply IH.
  - intros [-> | H]; [| contradiction].
    clear IH. revert m. induction ks as [| k1 ks IH]; intros m; simpl.
    + apply get_delete_eq.
    + assert (Hne : k1 <> k) by (intros ->; apply Hnin; now left).
      assert (Hnin' : ~ In k ks) by (intros H; apply Hnin; now right).
      specialize (IH Hnin' (delete m k1)).
      assert (Hswap : delete (delete m k) k1 = delete (delete m k1) k).
      { clear. induction m as [| [k0 v0] m IHm]; simpl; [reflexivity |].
        destruct (String.eqb k0 k) eqn:E1, (String.eqb k0 k1) eqn:E2; simpl;
          rewrite ?E1, ?E2, ?IHm; reflexivity. }
      now rewrite Hswap.
Qed.

Lemma get_foldl_delete_notin ks : forall m k,
  ~ In k ks -> get (foldl delete m ks) k = get m k.
Proof.
  induction ks as [| k0 ks IH]; intros m k Hnin; simpl; [reflexivity |].
  rewrite IH by (intros H; apply Hnin; now right).
  apply get_delete_ne. intros ->. apply Hnin. now left.
Qed.

Lemma in_foldl_delete ks : forall m (e : string * V),
  In e (foldl delete m ks) <-> In e m /\ ~ In (fst e) ks.
Proof.
  induction ks as [| k0 ks IH]; intros m e; simpl; [tauto |].
  rewrite IH, in_delete. split.
  - intros [[H1 H2] H3]. split; [exact H1 |]. intros [H | H]; auto.
  - intros [H1 H2]. repeat split; auto.
Qed.

Lemma NoDup_keys_foldl_delete ks : forall m,
  NoDup (keys m) -> NoDup (keys (foldl delete m ks)).
Proof.
  induction ks as [| k0 ks IH]; intros m Hnd; simpl; [exact Hnd |].
  apply IH. now apply NoDup_keys_delete.
Qed.

End WithValues.
End JsMapMore.

(** * The handlers, case by case *)

Section Cases.
Import JsMap JsMapFacts JsMapMore.

Lemma set_secret_code_cases st sock gameId c :
  set_secret_code st sock gameId c = (st, []) \/
  exists g,
    get (activeGames st) gameId = Some g /\
    is_participant g sock = true /\
    fst (set_secret_code st sock gameId c) =
      with_games st (set (activeGames st) gameId (write_secret g sock c)).
Proof.
  destruct (get (activeGames st) gameId) as [g |] eqn:Hg.
  2:{ left. unfold set_secret_code. now rewrite Hg. }
  destruct (is_participant g sock) eqn:Hpart.
  - right. exists g. split; [reflexivity |]. split; [exact Hpart |].
    now rewrite (set_secret_code_participant st sock gameId g c Hg Hpart).
  - left. unfold set_secret_code. rewrite Hg.
    unfold is_participant in Hpart.
    now apply orb_false_elim in Hpart as [-> ->].
Qed.

Lemma submit_guess_cases st sock gameId gs st' out :
  submit_guess st sock gameId gs = Normal st' out ->
  st' = st \/
  exists g secret,
    get (activeGames st) gameId = Some g /\
    bothCodesSet g = true /\
    is_participant g sock = true /\
    (length (guessesArray g sock) < 10)%nat /\
    targetSecret g sock = Some secret /\
    st' = with_games st
            (set (activeGames st) gameId
               (push_guess g sock
                  {| guess := gs; feedback := calculateFeedback secret gs |})).
Proof.
  intros Hstep.
  destruct (get (activeGames st) gameId) as [g |] eqn:Hg.
  2:{ rewrite (submit_guess_not_found st sock gameId gs Hg) in Hstep.
      left. now injection Hstep. }
  destruct (bothCodesSet g) eqn:Hflag.
  2:{ rewrite (submit_guess_not_ready st sock gameId g gs Hg Hflag) in Hstep.
      left. now injection Hstep. }
  destruct (is_participant g sock) eqn:Hpart.
  2:{ rewrite (submit_guess_foreign st sock gameId g gs Hg Hflag Hpart)
        in Hstep.
      left. now injection Hstep. }
  destruct (Nat.le_gt_cases 10 (length (guessesArray g sock))) as [Hge | Hlt].
  { rewrite (submit_guess_exhausted st sock gameId g gs Hg Hflag Hpart Hge)
      in Hstep.
    left. now injection Hstep. }
  destruct (targetSecret g sock) as [secret |] eqn:Hsec.
  2:{ rewrite (submit_guess_null_secret st sock gameId g gs
                 Hg Hflag Hpart Hlt Hsec) in Hstep.
      discriminate Hstep. }
  rewrite (submit_guess_accepted st sock gameId g gs secret
             Hg Hflag Hpart Hlt Hsec) in Hstep.
  cbv zeta in Hstep. right. exists g, secret.
  do 5 (split; [first [reflexivity | assumption] |]). now injection Hstep.
Qed.

Lemma disconnect_fold_fst users sock entries : forall games out,
  fst (foldl (disconnect_entry users sock) (games, out) entries) =
    foldl delete games (sessions_of sock entries).
Proof.
  induction entries as [| [gameId g] entries IH]; intros games out; simpl;
    [reflexivity |].
  unfold is_participant.
  destruct (String.eqb (player1 g) sock || String.eqb (player2 g) sock);
    simpl; apply IH.
Qed.

Lemma disconnect_fold_snd users sock entries : forall games out,
  snd (foldl (disconnect_entry users sock) (games, out) entries) =
    out ++ disconnect_notices users sock entries.
Proof.
  induction entries as [| [gameId g] entries IH]; intros games out; simpl.
  - now rewrite app_nil_r.
  - unfold is_participant, opponentSocketId.
    destruct (String.eqb (player1 g) sock || String.eqb (player2 g) sock);
      simpl; [| apply IH].
    rewrite IH.
    match goal with |- context [if ?b then _ else _] => destruct b end;
      simpl; [now rewrite <- app_assoc | reflexivity].
Qed.

(** [disconnect] in closed form. *)
Lemma disconnect_eq st sock :
  disconnect st sock =
    ({| onlineUsers := delete (onlineUsers st) sock;
        activeGames :=
          foldl delete (activeGames st) (sessions_of sock (activeGames st)) |},
     (if has (onlineUsers st) sock
      then [(everyone,
             users_list_update (values (delete (onlineUsers st) sock)))]
      else [])
     ++ disconnect_notices (delete (onlineUsers st) sock) sock
          (activeGames st)).
Proof.
  unfold disconnect, entries.
  destruct (has (onlineUsers st) sock) eqn:Hhas.
  - match goal with |- context [foldl ?f ?a ?l] =>
      remember (foldl f a l) as r eqn:Er
    end.
    assert (H1 : fst r = foldl delete (activeGames st)
                           (sessions_of sock (activeGames st)))
      by (rewrite Er; apply disconnect_fold_fst).
    assert (H2 : snd r =
      [(everyone, users_list_update (values (delete (onlineUsers st) sock)))]
      ++ disconnect_notices (delete (onlineUsers st) sock) sock
           (activeGames st))
      by (rewrite Er; apply disconnect_fold_snd).
    destruct r as [games out]. simpl in H1, H2. now subst.
  - rewrite (delete_absent _ _ Hhas).
    match goal with |- context [foldl ?f ?a ?l] =>
      remember (foldl f a l) as r eqn:Er
    end.
    assert (H1 : fst r = foldl delete (activeGames st)
                           (sessions_of sock (activeGames st)))
      by (rewrite Er; apply disconnect_fold_fst).
    assert (H2 : snd r =
      [] ++ disconnect_notices (onlineUsers st) sock (activeGames st))
      by (rewrite Er; apply disconnect_fold_snd).
    destruct r as [games out]. simpl in H1, H2. now subst.
Qed.

Lemma in_sessions_of sock (entries : list (string * game)) gameId :
  In gameId (sessions_of sock entries) <->
  exists g, In (gameId, g) entries /\ is_participant g sock = true.
Proof.
  induction entries as [| [k g] entries IH]; simpl.
  - split; [contradiction | now intros (g & [] & _)].
  - destruct (is_participant g sock) eqn:Hpart; simpl; rewrite IH; split.
    + intros [<- | (g' & Hin & Hp)]; [exists g | exists g']; auto.
    + intros (g' & [[= <- <-] | Hin] & Hp); [now left | right; eauto].
    + intros (g' & Hin & Hp). eauto.
    + intros (g' & [[= <- <-] | Hin] & Hp); [congruence | eauto].
Qed.

End Cases.

(** * The lobby invariant *)

Section Lobby.
Import JsMap JsMapFacts JsMapMore.

Lemma everywhere_in {V} (P : V -> Prop) (m : t V) :
  everywhere P m <-> forall k v, In (k, v) m -> P v.
Proof.
  unfold everywhere. rewrite Forall_forall. split.
  - intros H k v Hin. apply (H (k, v)). now apply list_elem_of_In.
  - intros H [k v] Hin. apply (H k v). now apply list_elem_of_In.
Qed.

Lemma new_game_inv c sock : game_inv (new_game c sock).
Proof. unfold game_inv. simpl. auto. Qed.

Lemma write_secret_inv g sock c :
  game_inv g -> is_participant g sock = true -> game_inv (write_secret g sock c).
Proof.
  unfold game_inv, write_secret, is_participant.
  intros (Hflag & Hrows & Hself) Hpart.
  destruct (String.eqb_spec (player1 g) sock) as [H1 | H1]; cbv zeta.
  - destruct (secret2 g) as [s2 |] eqn:E2;
      repeat (progress (simpl; rewrite ?E2)).
    + split; [reflexivity |]. split; [discriminate |].
      intros H. apply Hself in H. discriminate H.
    + split; [| split; [exact Hrows | reflexivity]].
      rewrite Hflag. now destruct (secret1 g).
  - simpl in Hpart. apply String.eqb_eq in Hpart.
    assert (Hne : player1 g <> player2 g) by congruence.
    destruct (secret1 g) as [s1 |] eqn:E1;
      repeat (progress (simpl; rewrite ?E1)).
    + split; [reflexivity |]. split; [discriminate |].
      intros H. contradiction.
    + split; [| split; [exact Hrows | intros H; contradiction]].
      exact Hflag.
Qed.

Lemma push_guess_inv g sock d :
  game_inv g -> bothCodesSet g = true -> game_inv (push_guess g sock d).
Proof.
  unfold game_inv, push_guess. intros (Hflag & Hrows & Hself) Hup.
  destruct (String.eqb (player1 g) sock); simpl;
    (split; [exact Hflag |]; split; [congruence | exact Hself]).
Qed.

Lemma handle_lobby_ok st ev st' out :
  lobby_ok st -> handle st ev = Normal st' out -> lobby_ok st'.
Proof.
  intros (Husers & Hukeys & Hgkeys & Honline & Hinv) Hstep.
  destruct ev as [sock ud | sock | sock t | sock c now | sock id c
                 | sock id gs | sock]; simpl in Hstep; unfold of_pair in Hstep.
  - injection Hstep as <- _. unfold lobby_ok, players_online. simpl.
    split; [apply Forall_set; [exact Husers | now split] |].
    split; [now apply NoDup_keys_set |].
    split; [exact Hgkeys |]. split; [| exact Hinv].
    unfold players_online, everywhere in *.
    eapply Forall_impl; [exact Honline |].
    intros [k g] [H1 H2]. simpl in *. rewrite !has_set, H1, H2. now split.
  - injection Hstep as <- _. repeat split; assumption.
  - injection Hstep as <- _. unfold send_challenge.
    destruct (get (onlineUsers st) sock); [| repeat split; assumption].
    destruct (has (onlineUsers st) t); repeat split; assumption.
  - injection Hstep as <- _. unfold accept_challenge.
    destruct (get (onlineUsers st) sock) as [a |] eqn:Ha;
      [| repeat split; assumption].
    destruct (get (onlineUsers st) c) as [ch |] eqn:Hc;
      [| repeat split; assumption].
    unfold lobby_ok, players_online. simpl.
    split; [exact Husers |]. split; [exact Hukeys |].
    split; [now apply NoDup_keys_set |].
    split; [| apply everywhere_set; [exact Hinv | apply new_game_inv]].
    apply everywhere_set; [exact Honline |]. simpl.
    split; apply has_true; eauto.
  - injection Hstep as <- _.
    destruct (set_secret_code_cases st sock id c) as [-> | (g & Hg & Hpart & ->)];
      [repeat split; assumption |].
    pose proof (everywhere_get _ _ _ _ Honline Hg) as Hon.
    pose proof (everywhere_get _ _ _ _ Hinv Hg) as Hg_inv.
    unfold lobby_ok, players_online. simpl.
    split; [exact Husers |]. split; [exact Hukeys |].
    split; [now apply NoDup_keys_set |].
    split; [| apply everywhere_set; [exact Hinv | now apply write_secret_inv]].
    apply everywhere_set; [exact Honline |].
    unfold write_secret.
    destruct (String.eqb (player1 g) sock); cbv zeta;
      match goal with |- context [if ?b then _ else _] => destruct b end;
      exact Hon.
  - destruct (submit_guess_cases st sock id gs st' out Hstep)
      as [-> | (g & secret & Hg & Hflag & Hpart & Hlt & Hsec & ->)];
      [repeat split; assumption |].
    pose proof (everywhere_get _ _ _ _ Honline Hg) as Hon.
    pose proof (everywhere_get _ _ _ _ Hinv Hg) as Hg_inv.
    unfold lobby_ok, players_online. simpl.
    split; [exact Husers |]. split; [exact Hukeys |].
    split; [now apply NoDup_keys_set |].
    split; [| apply everywhere_set; [exact Hinv | now apply push_guess_inv]].
    apply everywhere_set; [exact Honline |].
    unfold push_guess. destruct (String.eqb (player1 g) sock); exact Hon.
  - injection Hstep as <- _. rewrite disconnect_eq.
    unfold lobby_ok, players_online. simpl.
    split; [now apply Forall_delete |].
    split; [now apply NoDup_keys_delete |].
    split; [now apply NoDup_keys_foldl_delete |].
    unfold players_online in Honline.
    rewrite everywhere_in in Honline, Hinv. rewrite !everywhere_in.
    split.
    + intros k g Hin. apply in_foldl_delete in Hin as [Hin Hkeep].
      simpl in Hkeep. destruct (Honline k g Hin) as [H1 H2].
      assert (Hout : is_participant g sock = false).
      { destruct (is_participant g sock) eqn:Hp; [| reflexivity].
        exfalso. apply Hkeep. apply in_sessions_of. eauto. }
      unfold is_participant in Hout. apply orb_false_elim in Hout as [P1 P2].
      rewrite !has_delete, H1, H2. rewrite (String.eqb_sym sock (player1 g)).
      rewrite (String.eqb_sym sock (player2 g)), P1, P2. now split.
    + intros k g Hin. apply in_foldl_delete in Hin as [Hin _]. eauto.
Qed.

Lemma initial_lobby_ok : lobby_ok initial.
Proof. repeat split; constructor. Qed.

Lemma reachable_lobby_ok st : reachable st -> lobby_ok st.
Proof.
  induction 1 as [| st ev st' out _ IH Hstep].
  - exact initial_lobby_ok.
  - exact (handle_lobby_ok _ _ _ _ IH Hstep).
Qed.

End Lobby.

(** * The presence list *)

(** X6: [register_user] files the caller under its connection id with the
    username of the payload and status online, leaves every other entry and
    every session alone, and broadcasts the new list.  A connection that
    registers again keeps its place in the list (its entry is replaced, not
    added a second time); a new one goes to the end. *)
Theorem register_user_entry (st : state) (sock : string) (ud : user_data) :
  let u := {| username := match ud with
                          | ud_string s => Some s
                          | ud_object o => o
                          end;
              socketId := sock; status := "online" |} in
  let st' := fst (register_user st sock ud) in
  JsMap.get (onlineUsers st') sock = Some u /\
  (forall k, k <> sock ->
     JsMap.get (onlineUsers st') k = JsMap.get (onlineUsers st) k) /\
  keys (onlineUsers st') =
    (if JsMap.has (onlineUsers st) sock then keys (onlineUsers st)
     else keys (onlineUsers st) ++ [sock]) /\
  activeGames st' = activeGames st /\
  In u (JsMap.values (onlineUsers st')) /\
  snd (register_user st sock ud) =
    [(everyone, users_list_update (JsMap.values (onlineUsers st')))].
Proof.
  intros u st'. subst st'. unfold register_user. simpl. fold u.
  split; [apply JsMapFacts.get_set_eq |].
  split; [intros k Hk; apply JsMapFacts.get_set_ne; congruence |].
  split; [apply JsMapMore.keys_set |].
  split; [reflexivity |]. split; [| reflexivity].
  unfold JsMap.values. apply in_map_iff. exists (sock, u).
  split; [reflexivity |].
  apply JsMapMore.in_of_get, JsMapFacts.get_set_eq.
Qed.

(** X7: in every state the handlers can reach, each entry of
    [onlineUsers] carries its own key as [socketId] and the status
    online, and the list sent to the clients names no connection twice. *)
Theorem presence_list_consistent (st : state) :
  reachable st ->
  (forall sock u,
     JsMap.get (onlineUsers st) sock = Some u ->
     socketId u = sock /\ status u = "online") /\
  NoDup (map socketId (JsMap.values (onlineUsers st))).
Proof.
  intros Hreach.
  destruct (reachable_lobby_ok st Hreach) as (Husers & Hkeys & _).
  split.
  - intros sock u Hget. apply JsMapMore.in_of_get in Hget.
    rewrite Forall_forall in Husers.
    apply (Husers (sock, u)). now apply list_elem_of_In.
  - assert (Hsame : map socketId (JsMap.values (onlineUsers st))
                    = keys (onlineUsers st)).
    { unfold JsMap.values, keys. rewrite map_map.
      apply map_ext_in. intros kv Hin.
      rewrite Forall_forall in Husers.
      apply (Husers kv). now apply list_elem_of_In. }
    now rewrite Hsame.
Qed.

Lemma presence_list_consistent_witness :
  (forall sock u,
     JsMap.get (onlineUsers match_ready) sock = Some u ->
     socketId u = sock /\ status u = "online") /\
  NoDup (map socketId (JsMap.values (onlineUsers match_ready))).
Proof.
  apply (presence_list_consistent match_ready).
  eapply state_after_reachable. vm_compute. reflexivity.
Defined.

Lemma disconnect_notices_only users sock entries e :
  In e (disconnect_notices users sock entries) ->
  exists opp gameId, e = (only opp, opponent_disconnected gameId).
Proof.
  induction entries as [| [k g] entries IH]; simpl; [contradiction |].
  rewrite in_app_iff. intros [H | H]; [| auto].
  match type of H with context [if ?b then _ else _] => destruct b end;
    [| contradiction].
  destruct H as [<- | []]. eauto.
Qed.



(** * Creating sessions *)

Lemma string_app_inv_head (x a b : string) : x +:+ a = x +:+ b -> a = b.
Proof.
  induction x as [| ch x IH]; simpl; [auto |].
  intros [= H]. auto.
Qed.

Lemma string_of_Z_inj (n m : Z) : string_of_Z n = string_of_Z m -> n = m.
Proof.
  unfold string_of_Z. intros H.
  assert (Hnil : forall z, Z.to_int z <> Decimal.Pos Decimal.Nil /\
                           Z.to_int z <> Decimal.Neg Decimal.Nil).
  { intros [| p | p]; simpl; split; try discriminate;
      intros [= Hp]; exact (DecimalPos.Unsigned.to_uint_nonnil p Hp). }
  pose proof (NilZero.isi (Z.to_int n) (proj1 (Hnil n)) (proj2 (Hnil n))) as Hn.
  pose proof (NilZero.isi (Z.to_int m) (proj1 (Hnil m)) (proj2 (Hnil m))) as Hm.
  rewrite H, Hm in Hn. injection Hn as Hn.
  rewrite <- (DecimalZ.of_to n), <- (DecimalZ.of_to m). now rewrite Hn.
Qed.

(** X9: [accept_challenge] does nothing exactly when the caller or the
    named challenger is not registered; nothing else is asked, in
    particular not that a challenge was ever sent.  Otherwise it stores a
    blank session (challenger as player 1, caller as player 2, both secrets
    null, both rows empty, flag down) under the generated id, leaves the
    sessions under other ids and the presence list alone, and tells both
    players the id and their role. *)
Theorem accept_challenge_contract
    (st : state) (sock challengerId : string) (now : Z) :
  (accept_challenge st sock challengerId now = (st, [])
   <-> JsMap.has (onlineUsers st) sock = false \/
       JsMap.has (onlineUsers st) challengerId = false) /\
  (forall accepter challenger,
     JsMap.get (onlineUsers st) sock = Some accepter ->
     JsMap.get (onlineUsers st) challengerId = Some challenger ->
     let gameId := make_gameId challengerId sock now in
     let st' := fst (accept_challenge st sock challengerId now) in
     JsMap.get (activeGames st') gameId =
       Some {| player1 := challengerId; player2 := sock;
               secret1 := None; secret2 := None;
               guesses1 := []; guesses2 := []; bothCodesSet := false |} /\
     (forall other, other <> gameId ->
        JsMap.get (activeGames st') other = JsMap.get (activeGames st) other) /\
     onlineUsers st' = onlineUsers st /\
     snd (accept_challenge st sock challengerId now) =
       [(only challengerId,
         challenge_accepted (username accepter) sock gameId "player1");
        (only sock,
         challenge_accepted (username challenger) challengerId gameId
           "player2")]).
Proof.
  unfold accept_challenge, JsMap.has.
  destruct (JsMap.get (onlineUsers st) sock) as [a |];
    destruct (JsMap.get (onlineUsers st) challengerId) as [c |];
    (split; [split |]); simpl; auto; try discriminate;
    try (intros [H | H]; discriminate H).
  intros accepter challenger [= <-] [= <-].
  split; [apply JsMapFacts.get_set_eq |].
  split; [intros other Hne; apply JsMapFacts.get_set_ne; congruence |].
  split; reflexivity.
Qed.

(** X10: for the same challenger and accepter, two readings of the clock
    give the same session id only if they are the same reading. *)
Theorem make_gameId_timestamp (challengerId sock : string) (n m : Z) :
  make_gameId challengerId sock n = make_gameId challengerId sock m <-> n = m.
Proof.
  split; [| now intros ->].
  unfold make_gameId. intros H.
  do 4 apply string_app_inv_head in H.
  now apply string_of_Z_inj.
Qed.

(** * Sessions in reachable states *)

(** X11: in every state the handlers can reach, a session's flag is up if
    and only if neither secret is null; while it is down both rows are
    empty; and a session a connection has with itself never gets its
    second secret, so its flag stays down and it never records a guess. *)
Theorem session_flag_mirrors_secrets (st : state) (gameId : string) (g : game) :
  reachable st ->
  JsMap.get (activeGames st) gameId = Some g ->
  (bothCodesSet g = true <-> secret1 g <> None /\ secret2 g <> None) /\
  (bothCodesSet g = false -> guesses1 g = [] /\ guesses2 g = []) /\
  (player1 g = player2 g ->
   secret2 g = None /\ bothCodesSet g = false /\
   guesses1 g = [] /\ guesses2 g = []).
Proof.
  intros Hreach Hg.
  destruct (reachable_lobby_ok st Hreach) as (_ & _ & _ & _ & Hinv).
  destruct (JsMapFacts.everywhere_get _ _ _ _ Hinv Hg)
    as (Hflag & Hrows & Hself).
  split; [| split; [exact Hrows |]].
  - rewrite Hflag. destruct (secret1 g), (secret2 g); simpl; split;
      first [discriminate | intros [H1 H2]; congruence
            | intros _; split; discriminate].
  - intros Hsame. specialize (Hself Hsame).
    assert (Hdown : bothCodesSet g = false)
      by (rewrite Hflag, Hself; now destruct (secret1 g)).
    destruct (Hrows Hdown). auto.
Qed.

Lemma session_flag_mirrors_secrets_witness :
  (bothCodesSet (match_game match_ready) = true <->
   secret1 (match_game match_ready) <> None /\
   secret2 (match_game match_ready) <> None) /\
  (bothCodesSet (match_game match_ready) = false ->
   guesses1 (match_game match_ready) = [] /\
   guesses2 (match_game match_ready) = []) /\
  (player1 (match_game match_ready) = player2 (match_game match_ready) ->
   secret2 (match_game match_ready) = None /\
   bothCodesSet (match_game match_ready) = false /\
   guesses1 (match_game match_ready) = [] /\
   guesses2 (match_game match_ready) = []).
Proof.
  apply (session_flag_mirrors_secrets match_ready match_id
           (match_game match_ready)).
  - eapply state_after_reachable. vm_compute. reflexivity.
  - vm_compute. reflexivity.
Defined.

(** X12: no sequence of events makes a handler throw: from the empty
    store every run goes through, whatever the events and their order. *)
Theorem run_never_throws (evs : list event) :
  exists st out, run initial evs = Some (st, out).
Proof.
  assert (Hgen : forall evs st, store_ok st ->
            exists st' out, run st evs = Some (st', out)).
  { clear evs. induction evs as [| ev evs IH]; intros st Hok; simpl.
    - eauto.
    - destruct (handle_total st ev Hok) as (st1 & out1 & Hstep).
      rewrite Hstep.
      destruct (IH st1 (handle_ok _ _ _ _ Hok Hstep)) as (st2 & out2 & Hrun).
      rewrite Hrun. eauto. }
  apply Hgen. constructor.
Qed.

(** X13: in every state the handlers can reach, both players of every
    session are registered connections: sessions are only created between
    registered connections, and a connection that disconnects leaves no
    session behind. *)
Theorem session_players_are_online (st : state) (gameId : string) (g : game) :
  reachable st ->
  JsMap.get (activeGames st) gameId = Some g ->
  JsMap.has (onlineUsers st) (player1 g) = true /\
  JsMap.has (onlineUsers st) (player2 g) = true.
Proof.
  intros Hreach Hg.
  destruct (reachable_lobby_ok st Hreach) as (_ & _ & _ & Honline & _).
  exact (JsMapFacts.everywhere_get _ _ _ _ Honline Hg).
Qed.

Lemma session_players_are_online_witness :
  JsMap.has (onlineUsers match_ready) (player1 (match_game match_ready)) = true /\
  JsMap.has (onlineUsers match_ready) (player2 (match_game match_ready)) = true.
Proof.
  apply (session_players_are_online match_ready match_id).
  - eapply state_after_reachable. vm_compute. reflexivity.
  - vm_compute. reflexivity.
Defined.

(** * Guessing and committing, in more detail *)

Lemma push_guess_fields g sock d :
  player1 (push_guess g sock d) = player1 g /\
  player2 (push_guess g sock d) = player2 g /\
  secret1 (push_guess g sock d) = secret1 g /\
  secret2 (push_guess g sock d) = secret2 g /\
  bothCodesSet (push_guess g sock d) = bothCodesSet g /\
  opponentArray (push_guess g sock d) sock = opponentArray g sock.
Proof.
  unfold push_guess, opponentArray.
  destruct (String.eqb (player1 g) sock) eqn:E; simpl; rewrite ?E; auto 10.
Qed.

(** X14: an accepted guess adds one record, the guess with its feedback
    against the opponent's current secret, at the end of the caller's row
    and changes nothing else: not the opponent's row, the secrets, the
    players or the flag of the session, not any other session, not the
    presence list. *)
Theorem submit_guess_touches_one_row
    (st : state) (sock gameId : string) (g : game) (gs secret : list Z) :
  JsMap.get (activeGames st) gameId = Some g ->
  bothCodesSet g = true ->
  is_participant g sock = true ->
  (length (guessesArray g sock) < 10)%nat ->
  targetSecret g sock = Some secret ->
  exists st' out g',
    submit_guess st sock gameId gs = Normal st' out /\
    JsMap.get (activeGames st') gameId = Some g' /\
    guessesArray g' sock =
      guessesArray g sock
      ++ [{| guess := gs; feedback := calculateFeedback secret gs |}] /\
    opponentArray g' sock = opponentArray g sock /\
    (player1 g' = player1 g /\ player2 g' = player2 g /\
     secret1 g' = secret1 g /\ secret2 g' = secret2 g /\
     bothCodesSet g' = bothCodesSet g) /\
    (forall other, other <> gameId ->
       JsMap.get (activeGames st') other = JsMap.get (activeGames st) other) /\
    keys (activeGames st') = keys (activeGames st) /\
    onlineUsers st' = onlineUsers st.
Proof.
  intros Hg Hflag Hpart Hlt Hsec.
  pose proof (submit_guess_accepted st sock gameId g gs secret
                Hg Hflag Hpart Hlt Hsec) as Hacc.
  cbv zeta in Hacc.
  destruct (push_guess_fields g sock
              {| guess := gs; feedback := calculateFeedback secret gs |})
    as (P1 & P2 & S1 & S2 & F & O).
  eexists _, _, _. split; [exact Hacc |]. simpl.
  split; [apply JsMapFacts.get_set_eq |].
  split; [apply guessesArray_push |].
  split; [exact O |].
  split; [auto |].
  split; [intros other Hne; apply JsMapFacts.get_set_ne; congruence |].
  split; [| reflexivity].
  rewrite JsMapMore.keys_set.
  now rewrite (proj2 (JsMapFacts.has_true _ _) (ex_intro _ g Hg)).
Qed.

Lemma submit_guess_touches_one_row_witness :
  exists st' out g',
    submit_guess match_ready "A" match_id [4; 4; 1; 1] = Normal st' out /\
    JsMap.get (activeGames st') match_id = Some g' /\
    guessesArray g' "A" =
      guessesArray (match_game match_ready) "A"
      ++ [{| guess := [4; 4; 1; 1];
             feedback := calculateFeedback [4; 3; 2; 1] [4; 4; 1; 1] |}] /\
    opponentArray g' "A" = opponentArray (match_game match_ready) "A" /\
    (player1 g' = player1 (match_game match_ready) /\
     player2 g' = player2 (match_game match_ready) /\
     secret1 g' = secret1 (match_game match_ready) /\
     secret2 g' = secret2 (match_game match_ready) /\
     bothCodesSet g' = bothCodesSet (match_game match_ready)) /\
    (forall other, other <> match_id ->
       JsMap.get (activeGames st') other
       = JsMap.get (activeGames match_ready) other) /\
    keys (activeGames st') = keys (activeGames match_ready) /\
    onlineUsers st' = onlineUsers match_ready.
Proof.
  apply (submit_guess_touches_one_row match_ready "A" match_id
           (match_game match_ready) [4; 4; 1; 1] [4; 3; 2; 1]).
  - vm_compute. reflexivity.
  - vm_compute. reflexivity.
  - vm_compute. reflexivity.
  - vm_compute. lia.
  - vm_compute. reflexivity.
Defined.

(** X15: winning does not close the caller's row.  After an accepted
    winning guess that leaves the row below ten entries, the same player's
    next guess is accepted and scored like any other; only the count of
    ten ever turns a guess away. *)
Theorem guess_after_win_is_accepted
    (st : state) (sock gameId : string) (g : game) (gs secret gs2 : list Z) :
  JsMap.get (activeGames st) gameId = Some g ->
  bothCodesSet g = true ->
  is_participant g sock = true ->
  (length (guessesArray g sock) < 9)%nat ->
  targetSecret g sock = Some secret ->
  every_eq gs secret = true ->
  let d1 := {| guess := gs; feedback := calculateFeedback secret gs |} in
  let d2 := {| guess := gs2; feedback := calculateFeedback secret gs2 |} in
  exists st1 out1 st2 out2 g2 over,
    submit_guess st sock gameId gs = Normal st1 out1 /\
    In (only sock, guess_feedback gameId d1 true true) out1 /\
    submit_guess st1 sock gameId gs2 = Normal st2 out2 /\
    In (only sock, guess_feedback gameId d2 (every_eq gs2 secret) over) out2 /\
    JsMap.get (activeGames st2) gameId = Some g2 /\
    guessesArray g2 sock = guessesArray g sock ++ [d1; d2].
Proof.
  intros Hg Hflag Hpart Hlt Hsec Hwin d1 d2.
  pose proof (submit_guess_accepted st sock gameId g gs secret
                Hg Hflag Hpart ltac:(lia) Hsec) as Hacc1.
  cbv zeta in Hacc1. fold d1 in Hacc1. rewrite Hwin, orb_true_r in Hacc1.
  destruct (push_guess_fields g sock d1) as (P1 & P2 & S1 & S2 & F & _).
  set (g1 := push_guess g sock d1) in *.
  set (st1 := with_games st (JsMap.set (activeGames st) gameId g1)) in *.
  assert (Hg1 : JsMap.get (activeGames st1) gameId = Some g1)
    by apply JsMapFacts.get_set_eq.
  assert (Hflag1 : bothCodesSet g1 = true) by congruence.
  assert (Hpart1 : is_participant g1 sock = true)
    by (unfold is_participant in *; now rewrite P1, P2).
  assert (Hrow1 : guessesArray g1 sock = guessesArray g sock ++ [d1])
    by apply guessesArray_push.
  assert (Hlt1 : (length (guessesArray g1 sock) < 10)%nat)
    by (rewrite Hrow1, length_app; simpl; lia).
  assert (Hsec1 : targetSecret g1 sock = Some secret)
    by (unfold targetSecret in *; now rewrite P1, S1, S2).
  pose proof (submit_guess_accepted st1 sock gameId g1 gs2 secret
                Hg1 Hflag1 Hpart1 Hlt1 Hsec1) as Hacc2.
  cbv zeta in Hacc2. fold d2 in Hacc2.
  eexists _, _, _, _, _, _.
  split; [exact Hacc1 |]. split; [now left |].
  split; [exact Hacc2 |]. split; [now left |].
  split; [apply JsMapFacts.get_set_eq |].
  rewrite guessesArray_push, Hrow1, <- app_assoc. reflexivity.
Qed.

(** A guesses B's secret at the first attempt and then guesses again. *)
Lemma guess_after_win_is_accepted_witness :
  exists st1 out1 st2 out2 g2 over,
    submit_guess match_ready "A" match_id [4; 3; 2; 1] = Normal st1 out1 /\
    In (only "A",
        guess_feedback match_id
          {| guess := [4; 3; 2; 1];
             feedback := calculateFeedback [4; 3; 2; 1] [4; 3; 2; 1] |}
          true true) out1 /\
    submit_guess st1 "A" match_id [1; 1; 1; 1] = Normal st2 out2 /\
    In (only "A",
        guess_feedback match_id
          {| guess := [1; 1; 1; 1];
             feedback := calculateFeedback [4; 3; 2; 1] [1; 1; 1; 1] |}
          (every_eq [1; 1; 1; 1] [4; 3; 2; 1]) over) out2 /\
    JsMap.get (activeGames st2) match_id = Some g2 /\
    guessesArray g2 "A" =
      guessesArray (match_game match_ready) "A"
      ++ [{| guess := [4; 3; 2; 1];
             feedback := calculateFeedback [4; 3; 2; 1] [4; 3; 2; 1] |};
          {| guess := [1; 1; 1; 1];
             feedback := calculateFeedback [4; 3; 2; 1] [1; 1; 1; 1] |}].
Proof.
  apply (guess_after_win_is_accepted match_ready "A" match_id
           (match_game match_ready) [4; 3; 2; 1] [4; 3; 2; 1] [1; 1; 1; 1]).
  - vm_compute. reflexivity.
  - vm_compute. reflexivity.
  - vm_compute. reflexivity.
  - vm_compute. lia.
  - vm_compute. reflexivity.
  - vm_compute. reflexivity.
Defined.

(** X16: a participant's [set_secret_code] sends [both_codes_set] to player
    1 and player 2 when the other slot already holds a secret, and
    otherwise a single [opponent_code_set] to the opponent, not to the
    caller; in the second case the flag is left as it was. *)
Theorem set_secret_code_notifications
    (st : state) (sock gameId : string) (g : game) (c : list Z) :
  JsMap.get (activeGames st) gameId = Some g ->
  is_participant g sock = true ->
  snd (set_secret_code st sock gameId c) =
    match other_secret g sock with
    | Some _ => [(only (player1 g), both_codes_set gameId);
                 (only (player2 g), both_codes_set gameId)]
    | None => [(only (opponentSocketId g sock), opponent_code_set gameId)]
    end /\
  (other_secret g sock = None ->
   exists g',
     JsMap.get (activeGames (fst (set_secret_code st sock gameId c))) gameId
       = Some g' /\
     bothCodesSet g' = bothCodesSet g /\
     own_secret g' sock = Some c).
Proof.
  intros Hg Hpart.
  rewrite (set_secret_code_participant st sock gameId g c Hg Hpart).
  cbn [fst snd with_games activeGames].
  unfold write_secret, other_secret, own_secret, opponentSocketId.
  destruct (String.eqb (player1 g) sock) eqn:P1; cbv zeta.
  - destruct (secret2 g) as [s2 |] eqn:E2;
      repeat (progress (simpl; rewrite ?E2)).
    + split; [reflexivity | discriminate].
    + split; [reflexivity |]. intros _. eexists.
      split; [apply JsMapFacts.get_set_eq |]. simpl. now rewrite P1.
  - destruct (secret1 g) as [s1 |] eqn:E1;
      repeat (progress (simpl; rewrite ?E1)).
    + split; [reflexivity | discriminate].
    + split; [reflexivity |]. intros _. eexists.
      split; [apply JsMapFacts.get_set_eq |]. simpl. now rewrite P1.
Qed.

(** A commits first in a fresh match: only B is told. *)
Lemma set_secret_code_notifications_witness :
  let st := state_after (take 4 match_setup) in
  snd (set_secret_code st "A" match_id [1; 2; 3; 4]) =
    match other_secret (match_game st) "A" with
    | Some _ => [(only (player1 (match_game st)), both_codes_set match_id);
                 (only (player2 (match_game st)), both_codes_set match_id)]
    | None => [(only (opponentSocketId (match_game st) "A"),
                opponent_code_set match_id)]
    end /\
  (other_secret (match_game st) "A" = None ->
   exists g',
     JsMap.get
       (activeGames (fst (set_secret_code st "A" match_id [1; 2; 3; 4])))
       match_id = Some g' /\
     bothCodesSet g' = bothCodesSet (match_game st) /\
     own_secret g' "A" = Some [1; 2; 3; 4]).
Proof.
  intros st.
  apply (set_secret_code_notifications st "A" match_id (match_game st)
           [1; 2; 3; 4]).
  - vm_compute. reflexivity.
  - vm_compute. reflexivity.
Defined.

(** * Disconnecting *)

Section Disconnect.
Import JsMap JsMapFacts JsMapMore.

Lemma in_disconnect_notices users sock (entries : list (string * game)) t gameId :
  In (t, opponent_disconnected gameId) (disconnect_notices users sock entries)
  <-> exists g,
        In (gameId, g) entries /\
        is_participant g sock = true /\
        truthy (opponentSocketId g sock) = true /\
        has users (opponentSocketId g sock) = true /\
        t = only (opponentSocketId g sock).
Proof.
  induction entries as [| [k g] entries IH]; simpl.
  - split; [contradiction | now intros (g & [] & _)].
  - rewrite in_app_iff, IH. split.
    + intros [H | (g' & Hin & H)]; [| exists g'; tauto].
      destruct (is_participant g sock) eqn:Hp; [| contradiction].
      destruct (truthy (opponentSocketId g sock)) eqn:Ht; [| contradiction].
      destruct (has users (opponentSocketId g sock)) eqn:Hh; [| contradiction].
      destruct H as [[= <- <-] | []]. exists g. auto.
    + intros (g' & [[= <- <-] | Hin] & Hp & Ht & Hh & ->).
      * left. rewrite Hp, Ht, Hh. now left.
      * right. exists g'. auto.
Qed.

Lemma disconnect_notices_NoDup users sock (entries : list (string * game)) :
  NoDup (keys entries) -> NoDup (disconnect_notices users sock entries).
Proof.
  induction entries as [| [k g] entries IH]; simpl; intros Hnd;
    [constructor |].
  apply NoDup_cons in Hnd as [Hk Hnd]. fold (keys entries) in *.
  match goal with |- context [if ?b then _ else _] => destruct b end;
    simpl; [| auto].
  apply NoDup_cons. split; [| auto].
  intros Hin. apply list_elem_of_In in Hin.
  apply in_disconnect_notices in Hin as (g' & Hin & _).
  apply Hk. apply list_elem_of_In. unfold keys. apply in_map_iff.
  now exists (k, g').
Qed.

Lemma no_sessions_of sock (entries : list (string * game)) users :
  (forall k g, In (k, g) entries -> is_participant g sock = false) ->
  sessions_of sock entries = [] /\ disconnect_notices users sock entries = [].
Proof.
  induction entries as [| [k g] entries IH]; simpl; intros Hout; [auto |].
  rewrite (Hout k g) by now left. simpl. apply IH. eauto.
Qed.

(** What is left in [activeGames] involves the connection that left in
    no session. *)
Lemma disconnect_leaves_none st sock k g :
  In (k, g) (activeGames (fst (disconnect st sock))) ->
  is_participant g sock = false.
Proof.
  rewrite disconnect_eq. simpl. intros Hin.
  apply in_foldl_delete in Hin as [Hin Hkeep]. simpl in Hkeep.
  destruct (is_participant g sock) eqn:Hp; [| reflexivity].
  exfalso. apply Hkeep. apply in_sessions_of. eauto.
Qed.

End Disconnect.

(** X17: in a state the handlers can reach, [disconnect] removes the
    caller from the presence list and removes exactly the sessions the
    caller plays in: every other user and every session between other
    connections is found afterwards as it was. *)
Theorem disconnect_removes_own_sessions (st : state) (sock : string) :
  reachable st ->
  let st' := fst (disconnect st sock) in
  JsMap.has (onlineUsers st') sock = false /\
  (forall k, k <> sock ->
     JsMap.get (onlineUsers st') k = JsMap.get (onlineUsers st) k) /\
  (forall gameId,
     JsMap.get (activeGames st') gameId =
       match JsMap.get (activeGames st) gameId with
       | Some g => if is_participant g sock then None else Some g
       | None => None
       end).
Proof.
  intros Hreach st'. subst st'.
  destruct (reachable_lobby_ok st Hreach) as (_ & _ & Hgkeys & _).
  rewrite disconnect_eq. simpl.
  split; [rewrite JsMapMore.has_delete, String.eqb_refl;
          apply andb_false_r |].
  split; [intros k Hk; apply JsMapFacts.get_delete_ne; congruence |].
  intros gameId.
  destruct (in_dec String.string_dec gameId
              (sessions_of sock (activeGames st))) as [Hin | Hnin].
  - rewrite (JsMapMore.get_foldl_delete_in _ _ _ Hin).
    apply in_sessions_of in Hin as (g & Hin & Hp).
    rewrite (JsMapMore.get_of_in _ _ _ Hgkeys Hin). now rewrite Hp.
  - rewrite (JsMapMore.get_foldl_delete_notin _ _ _ Hnin).
    destruct (JsMap.get (activeGames st) gameId) as [g |] eqn:Hg;
      [| reflexivity].
    destruct (is_participant g sock) eqn:Hp; [| reflexivity].
    exfalso. apply Hnin. apply in_sessions_of. exists g.
    split; [now apply JsMapMore.in_of_get | exact Hp].
Qed.

(** A leaves while the match with B is on. *)
Lemma disconnect_removes_own_sessions_witness :
  let st' := fst (disconnect match_ready "A") in
  JsMap.has (onlineUsers st') "A" = false /\
  (forall k, k <> "A" ->
     JsMap.get (onlineUsers st') k = JsMap.get (onlineUsers match_ready) k) /\
  (forall gameId,
     JsMap.get (activeGames st') gameId =
       match JsMap.get (activeGames match_ready) gameId with
       | Some g => if is_participant g "A" then None else Some g
       | None => None
       end).
Proof.
  apply (disconnect_removes_own_sessions match_ready "A").
  eapply state_after_reachable. vm_compute. reflexivity.
Defined.

(** X18: in a state the handlers can reach, [disconnect] sends
    [opponent_disconnected] for a session id to a connection exactly when
    the caller plays in that session and the connection is its opponent
    there, other than the caller itself (and not the empty id); no emission
    of the handler is sent twice, so each such opponent gets one notice per
    session. *)
Theorem disconnect_notifies_opponents
    (st : state) (sock : string) (t : target) (gameId : string) :
  reachable st ->
  (In (t, opponent_disconnected gameId) (snd (disconnect st sock))
   <-> exists g,
         JsMap.get (activeGames st) gameId = Some g /\
         is_participant g sock = true /\
         t = only (opponentSocketId g sock) /\
         opponentSocketId g sock <> sock /\
         opponentSocketId g sock <> "") /\
  NoDup (snd (disconnect st sock)).
Proof.
  intros Hreach.
  destruct (reachable_lobby_ok st Hreach) as (_ & _ & Hgkeys & Honline & _).
  rewrite disconnect_eq. simpl. split.
  - rewrite in_app_iff, in_disconnect_notices. split.
    + intros [Hin | (g & Hin & Hp & Ht & Hh & ->)].
      { destruct (JsMap.has (onlineUsers st) sock); [| contradiction].
        destruct Hin as [H | []]. discriminate H. }
      exists g. split; [now apply JsMapMore.get_of_in |].
      split; [exact Hp |]. split; [reflexivity |].
      rewrite JsMapMore.has_delete in Hh. apply andb_prop in Hh as [_ Hne].
      split.
      * intros E. rewrite E, String.eqb_refl in Hne. discriminate Hne.
      * intros E. unfold truthy in Ht. rewrite E in Ht. discriminate Ht.
    + intros (g & Hg & Hp & -> & Hne & Hnz). right. exists g.
      split; [now apply JsMapMore.in_of_get |]. split; [exact Hp |].
      split; [unfold truthy; now destruct (String.eqb_spec
                (opponentSocketId g sock) "") |].
      split; [| reflexivity].
      destruct (JsMapFacts.everywhere_get _ _ _ _ Honline Hg) as [H1 H2].
      rewrite JsMapMore.has_delete.
      assert (Hon : JsMap.has (onlineUsers st) (opponentSocketId g sock) = true)
        by (unfold opponentSocketId;
            now destruct (String.eqb (player1 g) sock)).
      rewrite Hon. simpl.
      destruct (String.eqb_spec sock (opponentSocketId g sock)) as [E | _];
        [now contradiction Hne | reflexivity].
  - apply NoDup_app. split; [| split].
    + destruct (JsMap.has (onlineUsers st) sock);
        [apply NoDup_singleton | constructor].
    + intros e He Hn. apply list_elem_of_In in He, Hn.
      apply disconnect_notices_only in Hn as (opp & gid & ->).
      destruct (JsMap.has (onlineUsers st) sock); [| contradiction].
      destruct He as [H | []]. discriminate H.
    + now apply disconnect_notices_NoDup.
Qed.

(** A leaves the match with B: B is told once. *)
Lemma disconnect_notifies_opponents_witness :
  (In (only "B", opponent_disconnected match_id)
      (snd (disconnect match_ready "A"))
   <-> exists g,
         JsMap.get (activeGames match_ready) match_id = Some g /\
         is_participant g "A" = true /\
         only "B" = only (opponentSocketId g "A") /\
         opponentSocketId g "A" <> "A" /\
         opponentSocketId g "A" <> "") /\
  NoDup (snd (disconnect match_ready "A")).
Proof.
  apply (disconnect_notifies_opponents match_ready "A" (only "B") match_id).
  eapply state_after_reachable. vm_compute. reflexivity.
Defined.

(** X19: disconnecting twice is disconnecting once: in any state, a second
    [disconnect] of the same connection changes nothing and sends
    nothing. *)
Theorem disconnect_twice (st : state) (sock : string) :
  disconnect (fst (disconnect st sock)) sock = (fst (disconnect st sock), []).
Proof.
  pose proof (disconnect_leaves_none st sock) as Hnone.
  rewrite (disconnect_eq (fst (disconnect st sock)) sock).
  destruct (no_sessions_of sock (activeGames (fst (disconnect st sock)))
              (JsMap.delete (onlineUsers (fst (disconnect st sock))) sock)
              Hnone) as [-> ->].
  assert (Hgone : JsMap.has (onlineUsers (fst (disconnect st sock))) sock
                  = false).
  { rewrite disconnect_eq. simpl.
    rewrite JsMapMore.has_delete, String.eqb_refl. apply andb_false_r. }
  rewrite Hgone, (JsMapMore.delete_absent _ _ Hgone). simpl.
  now destruct (fst (disconnect st sock)).
Qed.

(** * The feedback does not depend on which code is the secret *)

Section Symmetry.

Lemma spec_exact_swap (secret : list Z) : forall gs,
  spec_exact gs secret =
  let '(sr, gr, n) := spec_exact secret gs in (gr, sr, n).
Proof.
  induction secret as [| s secret IH]; intros [| g gs]; simpl; try reflexivity.
  rewrite IH. destruct (spec_exact secret gs) as [[sr gr] n].
  rewrite (Z.eqb_sym g s). now destruct (s =? g).
Qed.

Lemma consume_first_live (v : Z) (gr : list (option Z)) :
  match spec_consume_first v gr with
  | Some gr' =>
      occurs v (live gr) = true /\ live gr' = remove_first v (live gr)
  | None => occurs v (live gr) = false
  end.
Proof.
  induction gr as [| [g |] gr IH]; simpl.
  - reflexivity.
  - destruct (g =? v); simpl; [auto |].
    destruct (spec_consume_first v gr) as [gr' |]; simpl.
    + destruct IH as [Hocc Hlive]. split; [exact Hocc | now f_equal].
    + exact IH.
  - destruct (spec_consume_first v gr) as [gr' |]; simpl; exact IH.
Qed.

Lemma spec_color_matching (sr : list (option Z)) : forall gr,
  spec_color sr gr = matching (live sr) (live gr).
Proof.
  induction sr as [| [v |] sr IH]; intros gr; simpl; [reflexivity | | apply IH].
  pose proof (consume_first_live v gr) as H.
  destruct (spec_consume_first v gr) as [gr' |].
  - destruct H as [-> <-]. now rewrite IH.
  - rewrite H. apply IH.
Qed.

(** Offering one more partner [v]: it is taken by the first [v] of [xs],
    if there is one. *)
Lemma matching_cons_r (xs : list Z) : forall ys v,
  matching xs (v :: ys) =
    if occurs v xs then S (matching (remove_first v xs) ys)
    else matching xs ys.
Proof.
  induction xs as [| x xs IH]; intros ys v; simpl; [reflexivity |].
  rewrite (Z.eqb_sym v x).
  destruct (Z.eqb_spec x v) as [-> | Hne]; simpl; [reflexivity |].
  destruct (occurs x ys) eqn:Hx.
  - rewrite IH. destruct (occurs v xs); simpl; now rewrite ?Hx.
  - rewrite IH. destruct (occurs v xs); simpl; now rewrite ?Hx.
Qed.

Lemma matching_sym (xs : list Z) : forall ys, matching xs ys = matching ys xs.
Proof.
  induction xs as [| x xs IH]; intros ys; simpl.
  - induction ys as [| y ys IHy]; simpl; [reflexivity | exact IHy].
  - rewrite matching_cons_r.
    destruct (occurs x ys); [f_equal |]; apply IH.
Qed.

(** The counts of the helper, through the policy with explicit marks. *)
Lemma feedback_through_marks (secret gs : list Z) :
  length secret = length gs ->
  ~ In (-1) secret ->
  calculateFeedback secret gs =
    let '(sr, gr, n) := spec_exact secret gs in
    replicate n black ++ replicate (matching (live sr) (live gr)) white.
Proof.
  intros Hlen Hfree.
  destruct (calculateFeedback_counts secret gs)
    as (sc & gc & b & gc' & w & Hb & Hw & -> & _).
  rewrite (blacks_pass_spec secret gs Hlen) in Hb.
  pose proof (spec_exact_live secret gs) as Hlive.
  destruct (spec_exact secret gs) as [[sr gr] n].
  injection Hb as <- <- <-.
  pose proof (whites_fold_spec sr gr 0%nat) as Hcolor.
  unfold whites_pass in Hw. rewrite Hw in Hcolor. simpl in Hcolor, Hlive.
  rewrite Hcolor, spec_color_matching; [reflexivity |].
  intros v Hin ->. exact (Hfree (Hlive _ Hin)).
Qed.

End Symmetry.

(** X20: for two codes of the same length that do not contain [-1],
    scoring the first against the second returns the same array as scoring
    the second against the first. *)
Theorem calculateFeedback_symmetric (c1 c2 : list Z) :
  length c1 = length c2 ->
  ~ In (-1) c1 ->
  ~ In (-1) c2 ->
  calculateFeedback c1 c2 = calculateFeedback c2 c1.
Proof.
  intros Hlen H1 H2.
  rewrite (feedback_through_marks c1 c2 Hlen H1).
  rewrite (feedback_through_marks c2 c1 (eq_sym Hlen) H2).
  rewrite (spec_exact_swap c1 c2).
  destruct (spec_exact c1 c2) as [[sr gr] n].
  now rewrite (matching_sym (live gr) (live sr)).
Qed.

Lemma calculateFeedback_symmetric_witness :
  calculateFeedback [1; 1; 2; 3]%Z [3; 1; 1; 4]%Z
  = calculateFeedback [3; 1; 1; 4]%Z [1; 1; 2; 3]%Z.
Proof.
  apply (calculateFeedback_symmetric [1; 1; 2; 3]%Z [3; 1; 1; 4]%Z).
  - reflexivity.
  - simpl. intros [H | [H | [H | [H | []]]]]; discriminate H.
  - simpl. intros [H | [H | [H | [H | []]]]]; discriminate H.
Defined.
